(** * huffman_arpeggio: n-ary Huffman tree construction

    A shallow embedding of [src/huffman_arpeggio/core.py]: the padding
    calculator, the heap driven merge engine and the traversal that derives
    the encoding map, followed by the properties of the specification. *)

From Stdlib Require Import ZArith Lia Bool.
From stdpp Require Import base option list strings gmap.

Set Warnings "-clear-no-such-hyp".

Local Open Scope Z_scope.

(** ** Outcomes of Python calls

    A call returns a value, raises an exception, or (for the [while] loop of
    [merge_nodes]) is still running when the fuel of the model is used up. *)

Inductive exn : Set :=
| ValueError
| ZeroDivisionError
| OverflowError
| KeyError
| IndexError
| AttributeError.

Inductive outcome (A : Type) : Type :=
| Ret (a : A)
| Raise (e : exn)
| OutOfFuel.

Arguments Ret {A} a.
Arguments Raise {A} e.
Arguments OutOfFuel {A}.

#[global] Instance outcome_ret : MRet outcome := fun A a => Ret a.

#[global] Instance outcome_bind : MBind outcome := fun A B k m =>
  match m with
  | Ret a => k a
  | Raise e => Raise e
  | OutOfFuel => OutOfFuel
  end.

(** ** [int / int] and [math.ceil]

    Line 47 divides two Python integers with [/], which yields a binary64
    float: the quotient of the two integers rounded once, to nearest, ties to
    even; [ZeroDivisionError] for a zero divisor and [OverflowError] when the
    rounded quotient does not fit.  A finite float is kept as sign, integer
    significand and binary exponent. *)

Module PyFloat.

Record t : Set := mk { negative : bool; mant : Z; expo : Z }.

Definition mant_dig : Z := 53.
Definition min_expo : Z := -1074.
Definition max_exp : Z := 1024.

(** [num / den] rounded to the nearest integer, ties to even. *)
Definition round_half_even (num den : Z) : Z :=
  let q := num / den in
  let r := num mod den in
  if 2 * r <? den then q
  else if den <? 2 * r then q + 1
  else if Z.even q then q else q + 1.

(** [floor (log2 (a / b))] for positive [a] and [b]. *)
Definition quot_exponent (a b : Z) : Z :=
  let d := Z.log2 a - Z.log2 b in
  if a * 2 ^ Z.max 0 (- d) <? b * 2 ^ Z.max 0 d then d - 1 else d.

Definition true_divide (a b : Z) : outcome t :=
  if b =? 0 then Raise ZeroDivisionError
  else
    let sgn := xorb (a <? 0) (b <? 0) in
    if a =? 0 then Ret (mk sgn 0 0)
    else
      let x := Z.abs a in
      let y := Z.abs b in
      let e := Z.max (quot_exponent x y - (mant_dig - 1)) min_expo in
      let m := round_half_even (x * 2 ^ Z.max 0 (- e)) (y * 2 ^ Z.max 0 e) in
      if (0 <=? e) && (2 ^ max_exp <=? m * 2 ^ e) then Raise OverflowError
      else Ret (mk sgn m e).

(** [m * 2 ^ e] rounded towards minus infinity, [m >= 0]. *)
Definition floor_mag (m e : Z) : Z :=
  if 0 <=? e then m * 2 ^ e else m / 2 ^ (- e).

(** [m * 2 ^ e] rounded towards plus infinity, [m >= 0]. *)
Definition ceil_mag (m e : Z) : Z :=
  if 0 <=? e then m * 2 ^ e else - ((- m) / 2 ^ (- e)).

(** [math.ceil] of a finite float, an [int]. *)
Definition ceil (x : t) : Z :=
  if negative x then - floor_mag (mant x) (expo x)
  else ceil_mag (mant x) (expo x).

End PyFloat.

(** ** The padding calculator (lines 39-49) *)

Definition calculate_padding (num_elements num_branches : Z)
  : outcome (Z * Z) :=
  q ← PyFloat.true_divide (num_elements - 1) (num_branches - 1);
  let num_branch_points := PyFloat.ceil q in
  let num_padding :=
    1 + (num_branches - 1) * num_branch_points - num_elements in
  Ret (num_branch_points, num_padding).

(** The ceiling of the exact quotient, used to state the specification's
    formula. *)
Definition ceil_div (a b : Z) : Z := - ((- a) / b).

(** ** The node model (lines 5-37) *)

#[warnings="-register-all"]
Inductive Node : Type :=
  mkNode { count : Z; target : option string; children : list Node }.

(** [Node.__lt__] (line 25). *)
Definition node_lt (self other : Node) : bool := count self <? count other.

(** ** [heapq]

    The list based binary heap of the Python library, ordered by [lt] alone.
    Positions are exchanged pairwise, as CPython's implementation does; the
    lists obtained are those of [heapq.py], which moves a hole instead. *)

Section Heapq.
Context {A : Type} (lt : A -> A -> bool).

(** [heap[i], heap[j] = heap[j], heap[i]] *)
Definition exchange (heap : list A) (i j : nat) : list A :=
  match heap !! i, heap !! j with
  | Some x, Some y => <[i := y]> (<[j := x]> heap)
  | _, _ => heap
  end.

(** [heap[i] < heap[j]] *)
Definition lt_at (heap : list A) (i j : nat) : bool :=
  match heap !! i, heap !! j with
  | Some x, Some y => lt x y
  | _, _ => false
  end.

(** [_siftdown]: the item at [pos] moves towards [startpos] while it is
    smaller than its parent.  [pos] decreases, so [pos] units of fuel are
    enough. *)
Fixpoint siftdown (fuel : nat) (heap : list A) (startpos pos : nat)
  : list A :=
  match fuel with
  | O => heap
  | S fuel' =>
      if decide (startpos < pos)%nat then
        let parentpos := ((pos - 1) / 2)%nat in
        if lt_at heap pos parentpos
        then siftdown fuel' (exchange heap pos parentpos) startpos parentpos
        else heap
      else heap
  end.

(** The first loop of [_siftup]: the smaller child moves up until [pos] is
    a leaf.  [pos] grows, so [len(heap)] units of fuel are enough. *)
Fixpoint siftup_loop (fuel : nat) (heap : list A) (pos : nat)
  : list A * nat :=
  match fuel with
  | O => (heap, pos)
  | S fuel' =>
      let endpos := length heap in
      let childpos := (2 * pos + 1)%nat in
      if decide (childpos < endpos)%nat then
        let rightpos := (childpos + 1)%nat in
        let childpos :=
          if bool_decide (rightpos < endpos)%nat
             && negb (lt_at heap childpos rightpos)
          then rightpos else childpos in
        siftup_loop fuel' (exchange heap pos childpos) childpos
      else (heap, pos)
  end.

Definition siftup (heap : list A) (pos : nat) : list A :=
  let '(heap', leaf) := siftup_loop (length heap) heap pos in
  siftdown leaf heap' pos leaf.

Definition heappush (heap : list A) (item : A) : list A :=
  siftdown (length heap) (heap ++ [item]) 0 (length heap).

(** [heappop]; [None] stands for the [IndexError] of an empty heap. *)
Definition heappop (heap : list A) : option (A * list A) :=
  match last heap with
  | None => None
  | Some lastelt =>
      let heap := removelast heap in
      match heap with
      | [] => Some (lastelt, [])
      | returnitem :: _ => Some (returnitem, siftup (<[0%nat := lastelt]> heap) 0)
      end
  end.

(** [heapify]: [for i in reversed(range(n // 2)): _siftup(x, i)]. *)
Definition heapify (x : list A) : list A :=
  foldl siftup x (reverse (seq 0 (length x / 2))).

End Heapq.

(** ** The merge engine (lines 51-73) *)

(** The [for] loop of lines 65-68, run [k] times. *)
Fixpoint pop_smallest (k : nat) (nodes : list Node)
    (merged_count : Z) (merged_children : list Node)
  : outcome (list Node * Z * list Node) :=
  match k with
  | O => Ret (nodes, merged_count, merged_children)
  | S k' =>
      match heappop node_lt nodes with
      | None => Raise IndexError
      | Some (node, nodes') =>
          pop_smallest k' nodes' (merged_count + count node)
            (merged_children ++ [node])
      end
  end.

(** The [while] loop of lines 61-71; one unit of fuel per iteration. *)
Fixpoint merge_loop (fuel : nat) (nodes : list Node) (num_branches : Z)
  : outcome (list Node) :=
  if decide (1 < length nodes)%nat then
    match fuel with
    | O => OutOfFuel
    | S fuel' =>
        let k := Z.to_nat (Z.min num_branches (Z.of_nat (length nodes))) in
        '(nodes', merged_count, merged_children) ← pop_smallest k nodes 0 [];
        let merged_node := mkNode merged_count None merged_children in
        merge_loop fuel' (heappush node_lt nodes' merged_node) num_branches
    end
  else Ret nodes.

Definition merge_nodes (fuel : nat) (nodes : list Node) (num_branches : Z)
  : outcome (option Node) :=
  nodes' ← merge_loop fuel (heapify node_lt nodes) num_branches;
  Ret (head nodes').

(** ** The tree builder (lines 75-99)

    A [Dict[str, int]] is the list of its items in insertion order; its keys
    are pairwise distinct. *)

Definition unique_keys (count_dict : list (string * Z)) : Prop :=
  NoDup count_dict.*1.

(** [Node(count, target)] for an item [(target, count)] (line 92). *)
Definition leaf_of (item : string * Z) : Node :=
  let '(target, count) := item in mkNode count (Some target) [].

(** [Node(0, None)] (line 95). *)
Definition padding_leaf : Node := mkNode 0 None [].

(** [fuel] bounds the iterations of the loop of [merge_nodes]; a duplicate
    free alphabet of two symbols or more needs no more iterations than the
    table has items. *)
Definition build_huffman_tree (fuel : nat)
    (count_dict : list (string * Z)) (symbols : list string)
  : outcome (option Node) :=
  if decide (length symbols ≠ size (list_to_set symbols : gset string))
  then Raise ValueError
  else
    let num_elements := Z.of_nat (length count_dict) in
    let num_branches := Z.of_nat (length symbols) in
    '(num_branch_points, num_padding) ←
      calculate_padding num_elements num_branches;
    let nodes := leaf_of <$> count_dict in
    let nodes := nodes ++ replicate (Z.to_nat num_padding) padding_leaf in
    merge_nodes fuel nodes num_branches.

(** ** The encoding map generator (lines 101-118) *)

(** [count_dict[key]]; [None] stands for [KeyError]. *)
Fixpoint dict_get (count_dict : list (string * Z)) (key : string) : option Z :=
  match count_dict with
  | [] => None
  | (k, v) :: rest => if decide (k = key) then Some v else dict_get rest key
  end.

Section Traverse.
Context (symbols : list string) (count_dict : list (string * Z)).

(** The loop of lines 113-114 over [enumerate(children)], from index [i],
    threading the encoding map. *)
Fixpoint for_children {N : Type}
    (visit : N -> list string -> gmap (list string) (string * Z) ->
             outcome (gmap (list string) (string * Z)))
    (path : list string) (i : nat) (children : list N)
    (encoding_map : gmap (list string) (string * Z))
  : outcome (gmap (list string) (string * Z)) :=
  match children with
  | [] => Ret encoding_map
  | child :: rest =>
      match symbols !! i with
      | None => Raise IndexError
      | Some s =>
          encoding_map' ← visit child (path ++ [s]) encoding_map;
          for_children visit path (S i) rest encoding_map'
      end
  end.

Fixpoint traverse (node : Node) (path : list string)
    (encoding_map : gmap (list string) (string * Z))
  : outcome (gmap (list string) (string * Z)) :=
  encoding_map' ←
    match target node with
    | Some t =>
        match dict_get count_dict t with
        | Some c => Ret (<[path := (t, c)]> encoding_map)
        | None => Raise KeyError
        end
    | None => Ret encoding_map
    end;
  for_children traverse path 0 (children node) encoding_map'.

End Traverse.

(** [root] is what [build_huffman_tree] returned; [None] has no attribute
    [target]. *)
Definition generate_encoding_map_with_count (root : option Node)
    (symbols : list string) (count_dict : list (string * Z))
  : outcome (gmap (list string) (string * Z)) :=
  match root with
  | None => Raise AttributeError
  | Some root => traverse symbols count_dict root [] ∅
  end.

(** ** Observations on trees and maps, used to state the properties *)

(** [P] holds at every node of the tree. *)
Fixpoint node_all (P : Node -> bool) (node : Node) : bool :=
  P node && forallb (node_all P) (children node).

Definition is_leaf (node : Node) : bool :=
  match children node with [] => true | _ => false end.

(** A node with at least one child has exactly [b] children. *)
Definition internal_has (b : nat) (node : Node) : bool :=
  is_leaf node || (length (children node) =? b)%nat.

Definition at_most_children (b : nat) (node : Node) : bool :=
  (length (children node) <=? b)%nat.

(** A node that carries a target has no child. *)
Definition target_is_leaf (node : Node) : bool :=
  match target node with Some _ => is_leaf node | None => true end.

(** What a merge step builds: a node with children has no target and
    exactly [b] children. *)
Definition merge_shape (b : nat) (node : Node) : bool :=
  is_leaf node
  || (bool_decide (target node = None) && (length (children node) =? b)%nat).

(** The targets found in a tree, each with the weight of its node, in the
    order of the traversal. *)
Fixpoint labelled (node : Node) : list (string * Z) :=
  match target node with Some t => [(t, count node)] | None => [] end
  ++ (children node ≫= labelled).

Definition sum_counts (nodes : list Node) : Z :=
  foldr (λ node acc, count node + acc) 0 nodes.

Definition sum_values (count_dict : list (string * Z)) : Z :=
  foldr (λ item acc, item.2 + acc) 0 count_dict.

(** The code words of a tree: the path of every node with a target, in the
    order in which [traverse] records them. *)
Section CodeWords.
Context (symbols : list string).

Fixpoint words_of_children {N : Type}
    (words : N -> list string -> list (list string * string))
    (path : list string) (i : nat) (children : list N)
  : list (list string * string) :=
  match children with
  | [] => []
  | child :: rest =>
      match symbols !! i with
      | None => []
      | Some s =>
          words child (path ++ [s]) ++ words_of_children words path (S i) rest
      end
  end.

Fixpoint code_words (node : Node) (path : list string)
  : list (list string * string) :=
  match target node with Some t => [(path, t)] | None => [] end
  ++ words_of_children code_words path 0 (children node).

End CodeWords.

Definition comparable (p q : list string) : Prop :=
  p `prefix_of` q \/ q `prefix_of` p.

(** No key of the map is a prefix of another key. *)
Definition prefix_free_map (m : gmap (list string) (string * Z)) : Prop :=
  forall p q, is_Some (m !! p) -> is_Some (m !! q) -> p <> q ->
              ~ p `prefix_of` q.

(** Pairwise incomparable paths. *)
Inductive prefix_free : list (list string) -> Prop :=
| prefix_free_nil : prefix_free []
| prefix_free_cons p l :
    Forall (λ q, ~ comparable p q) l -> prefix_free l -> prefix_free (p :: l).

(** What line 112 does to the encoding map for a node with target [t]
    reached by [path], when [t] is a key of [count_dict]. *)
Definition record (count_dict : list (string * Z))
    (encoding_map : gmap (list string) (string * Z))
    (word : list string * string) : gmap (list string) (string * Z) :=
  match dict_get count_dict word.2 with
  | Some c => <[word.1 := (word.2, c)]> encoding_map
  | None => encoding_map
  end.

(** The map has one entry for each item of the frequency table and no
    other: the entry of a target maps its code word to the target and its
    count in the table. *)
Definition one_entry_per_target (count_dict : list (string * Z))
    (m : gmap (list string) (string * Z)) : Prop :=
  size m = length count_dict
  /\ (forall t c, (t, c) ∈ count_dict ->
        exists p, m !! p = Some (t, c)
                  /\ forall p' v, m !! p' = Some v -> v.1 = t -> p' = p)
  /\ (forall p v, m !! p = Some v -> v ∈ count_dict).

(** A length that a float holds exactly.  Line 47 turns [len(count_dict)]
    and [len(symbols)] into a float quotient; every list and dict that fits
    in memory is far below this bound. *)
Definition exact_size (n : nat) : Prop := Z.of_nat n <= 2 ^ 53.

(** Frequency tables and alphabets used as concrete inputs. *)
Definition sample_counts : list (string * Z) :=
  [("a", 5); ("b", 9); ("c", 12); ("d", 13); ("e", 16); ("f", 45)]%string.

Definition ternary : list string := ["0"; "1"; "2"]%string.
Definition binary : list string := ["0"; "1"]%string.

(** ** Further observations *)

(** The number of nodes of the tree at which [P] holds. *)
Fixpoint count_nodes (P : Node -> bool) (node : Node) : nat :=
  ((if P node then 1 else 0) + sum_list (count_nodes P <$> children node))%nat.

Definition is_internal (node : Node) : bool := negb (is_leaf node).

(** A leaf without target, as line 95 makes them. *)
Definition is_padding (node : Node) : bool :=
  is_leaf node && bool_decide (target node = None).

Definition is_target_leaf (node : Node) : bool :=
  is_leaf node && bool_decide (target node <> None).

(** The count of a node with children is the sum of the counts of its
    children (lines 62-70). *)
Definition weight_is_sum (node : Node) : bool :=
  is_leaf node || (count node =? sum_counts (children node)).

(** No count below the node is negative, and no child outweighs its
    parent. *)
Definition weight_dominates (node : Node) : bool :=
  (0 <=? count node)
  && forallb (λ child, count child <=? count node) (children node).

(** What a merge step of [num_branches >= 2] builds from any heap: between
    two and [b] children, no target. *)
Definition merged_shape (b : nat) (node : Node) : bool :=
  is_leaf node
  || (bool_decide (target node = None)
      && (2 <=? length (children node))%nat
      && (length (children node) <=? b)%nat).

(** The node reached from [node] by following child positions. *)
Fixpoint node_at (node : Node) (positions : list nat) : option Node :=
  match positions with
  | [] => Some node
  | i :: rest =>
      match children node !! i with
      | Some child => node_at child rest
      | None => None
      end
  end.

(** [word] is [symbols[i]] for every child position [i], in order. *)
Definition spells (symbols : list string)
    (positions : list nat) (word : list string) : Prop :=
  Forall2 (λ i s, symbols !! i = Some s) positions word.

(** What the traversal needs of a tree: every node has at most
    [len(symbols)] children. *)
Definition fits (symbols : list string) (node : Node) : Prop :=
  node_all (at_most_children (length symbols)) node = true.

(** Every target of the tree is a key of [count_dict]. *)
Definition has_keys (count_dict : list (string * Z)) (node : Node) : Prop :=
  Forall (λ t, is_Some (dict_get count_dict t)) (labelled node).*1.

(** What the outcome of a visit tells about the trees visited. *)
Definition outcome_tells (result : outcome (gmap (list string) (string * Z)))
    (Fits Keys : Prop) : Prop :=
  match result with
  | Ret _ => Fits /\ Keys
  | Raise e => (e = IndexError /\ ~ Fits) \/ (e = KeyError /\ ~ Keys)
  | OutOfFuel => False
  end.

(** The counts do not decrease along the list. *)
Fixpoint sorted_counts (nodes : list Node) : bool :=
  match nodes with
  | x :: (y :: _) as rest => (count x <=? count y) && sorted_counts rest
  | _ => true
  end.

Definition children_ascending (node : Node) : bool :=
  sorted_counts (children node).

(** ** The invariant of [heapq] *)

(** The position of the parent in the implicit binary tree of a heap. *)
Definition parent (j : nat) : nat := ((j - 1) / 2)%nat.

(** [s] is [p] or an ancestor of [p]. *)
Inductive reach (s : nat) : nat -> Prop :=
| reach_refl : reach s s
| reach_child j : (0 < j)%nat -> reach s (parent j) -> reach s j.

Section HeapInvariant.
Context {A : Type} (key : A -> Z).
Implicit Types heap : list A.

(** The item at [i], when there is one, is not above the one at [j]. *)
Definition le_at heap (i j : nat) : Prop :=
  forall x y, heap !! i = Some x -> heap !! j = Some y -> key x <= key y.

(** The heap invariant from position [s] on: no item whose parent is at
    [s] or after is smaller than its parent. *)
Definition heap_from (s : nat) heap : Prop :=
  forall j, (0 < j)%nat -> (s <= parent j)%nat -> le_at heap (parent j) j.

(** All is in order from [s] on, except perhaps between [p] and its parent;
    the children of [p] are not below the parent of [p]. *)
Definition almost_heap (s p : nat) heap : Prop :=
  (p < length heap)%nat /\ reach s p
  /\ (forall j, (0 < j)%nat -> (s <= parent j)%nat -> j <> p ->
                le_at heap (parent j) j)
  /\ (forall j, (0 < j)%nat -> parent j = p -> (s < p)%nat ->
                le_at heap (parent p) j).

(** The first loop of [_siftup] has not compared the moving item with
    anything: all is in order from [s] on except around [p]. *)
Definition bubbling (s p : nat) heap : Prop :=
  (p < length heap)%nat /\ reach s p
  /\ (forall j, (0 < j)%nat -> (s <= parent j)%nat -> j <> p ->
                parent j <> p -> le_at heap (parent j) j)
  /\ (forall j, (0 < j)%nat -> parent j = p -> (s < p)%nat ->
                le_at heap (parent p) j).

End HeapInvariant.

(** * Properties *)

(** ** Rounding does not disturb the ceiling of small quotients *)

Section Rounding.
Import PyFloat.

Lemma round_half_even_range num den :
  0 < den ->
  num / den <= round_half_even num den <= num / den + 1.
Proof.
  intros Hden. unfold round_half_even.
  repeat case_match; lia.
Qed.

Lemma round_half_even_exact num den :
  0 < den -> num mod den = 0 -> round_half_even num den = num / den.
Proof.
  intros Hden Hr. unfold round_half_even. rewrite Hr.
  case_match; [done|]. apply Z.ltb_ge in H. lia.
Qed.

Lemma round_half_even_up num den :
  den < 2 * (num mod den) -> round_half_even num den = num / den + 1.
Proof.
  intros Hr. unfold round_half_even.
  case_match; [apply Z.ltb_lt in H; lia|].
  case_match; [done|]. apply Z.ltb_ge in H0. lia.
Qed.

Lemma ceil_div_spec a b k :
  0 < b -> (k - 1) * b < a <= k * b -> ceil_div a b = k.
Proof.
  intros Hb [Hlo Hhi]. unfold ceil_div.
  assert ((- a) / b = - k); [|lia].
  symmetry. apply (Z.div_unique_pos _ _ _ (k * b - a)); lia.
Qed.

Lemma ceil_div_bounds a b :
  0 < b -> (ceil_div a b - 1) * b < a <= ceil_div a b * b.
Proof.
  intros Hb. unfold ceil_div.
  pose proof (Z.div_mod (- a) b ltac:(lia)).
  pose proof (Z.mod_pos_bound (- a) b Hb). nia.
Qed.

(** With [s] a scaling by a power of two that leaves more than half a unit
    between consecutive multiples of [1 / b], the rounded quotient has the
    ceiling of the exact one. *)
Lemma round_scaled_ceil a b s :
  1 <= a -> 1 <= b -> 1 <= s -> b < 2 * s ->
  ceil_div (round_half_even (a * s) b) s = ceil_div a b.
Proof.
  intros Ha Hb Hs Hbs.
  pose proof (ceil_div_bounds a b ltac:(lia)) as [Hlo Hhi].
  set (k := ceil_div a b) in *.
  pose proof (Z.div_mod (a * s) b ltac:(lia)) as Hdm.
  pose proof (Z.mod_pos_bound (a * s) b ltac:(lia)) as Hr.
  pose proof (round_half_even_range (a * s) b ltac:(lia)) as Hm.
  set (q := a * s / b) in *. set (r := (a * s) mod b) in *.
  assert (Hqhi : q <= k * s) by nia.
  assert (Hqlo : (k - 1) * s <= q) by nia.
  apply ceil_div_spec; [lia|]. split.
  - destruct (decide (q = (k - 1) * s)) as [Heq|Hne]; [|lia].
    assert (s <= r) by nia.
    unfold q, r in *. rewrite round_half_even_up; lia.
  - destruct (decide (q = k * s)) as [Heq|Hne]; [|lia].
    assert (r = 0) by nia.
    unfold q, r in *. rewrite round_half_even_exact; lia.
Qed.

End Rounding.

Section Division.
Import PyFloat.

Lemma pow2_mant_lt_max : 2 ^ mant_dig + 1 < 2 ^ max_exp.
Proof. reflexivity. Qed.

Lemma quot_exponent_le a b :
  quot_exponent a b <= Z.log2 a - Z.log2 b.
Proof. unfold quot_exponent. case_match; lia. Qed.

Lemma quot_exponent_ge a b :
  Z.log2 a - Z.log2 b - 1 <= quot_exponent a b.
Proof. unfold quot_exponent. case_match; lia. Qed.

(** Quotients of integers below [2 ^ 53]: the float has the ceiling of the
    exact quotient. *)
Lemma true_divide_ceil_pos a b :
  1 <= a < 2 ^ 53 -> 1 <= b <= 2 ^ 53 ->
  exists x, true_divide a b = Ret x /\ ceil x = ceil_div a b.
Proof.
  intros Ha Hb. unfold true_divide.
  destruct (Z.eqb_spec b 0) as [?|_]; [lia|].
  destruct (Z.eqb_spec a 0) as [?|_]; [lia|].
  rewrite !Z.abs_eq by lia.
  assert (Hla : 0 <= Z.log2 a < 53).
  { split; [apply Z.log2_nonneg|]. apply Z.log2_lt_pow2; lia. }
  assert (Hlb : 0 <= Z.log2 b < 54).
  { split; [apply Z.log2_nonneg|]. apply Z.log2_lt_pow2; [lia|].
    change (2 ^ 54) with (2 * 2 ^ 53). lia. }
  pose proof (quot_exponent_le a b) as Hqle.
  pose proof (quot_exponent_ge a b) as Hqge.
  set (qe := quot_exponent a b) in *.
  unfold mant_dig, min_expo.
  rewrite (Z.max_l (qe - (53 - 1)) (-1074)) by lia.
  set (e := qe - (53 - 1)).
  assert (He : -106 <= e <= 0) by (unfold e; lia).
  rewrite (Z.max_r 0 (- e)), (Z.max_l 0 e) by lia.
  rewrite Z.pow_0_r, Z.mul_1_r.
  set (s := 2 ^ (- e)).
  assert (Hs : 1 <= s).
  { unfold s. pose proof (Z.pow_pos_nonneg 2 (- e)). lia. }
  assert (Hbs : b < 2 * s).
  { unfold s. rewrite <- Z.pow_succ_r by lia.
    pose proof (Z.log2_spec b ltac:(lia)) as [_ Hlt].
    eapply Z.lt_le_trans; [exact Hlt|].
    apply Z.pow_le_mono_r; unfold e; lia. }
  pose proof (round_scaled_ceil a b s ltac:(lia) ltac:(lia) Hs Hbs) as Hceil.
  set (m := round_half_even (a * s) b) in *.
  assert (Hov : (0 <=? e) && (2 ^ max_exp <=? m * 2 ^ e) = false).
  { destruct (Z.leb_spec 0 e) as [Hle|]; [|done].
    assert (e = 0) as -> by lia. simpl.
    apply Z.leb_gt. rewrite Z.mul_1_r.
    pose proof (round_half_even_range (a * s) b ltac:(lia)) as [_ Hhi].
    fold m in Hhi. unfold s in Hhi. change (2 ^ (- 0)) with 1 in Hhi.
    assert (a * 1 / b <= a * 1) by (apply Z.div_le_upper_bound; nia).
    pose proof pow2_mant_lt_max. unfold mant_dig in *. lia. }
  rewrite Hov. eexists; split; [done|].
  rewrite <- Hceil. unfold ceil, ceil_mag. simpl.
  destruct (Z.ltb_spec a 0); [lia|]. destruct (Z.ltb_spec b 0); [lia|]. simpl.
  destruct (Z.leb_spec 0 e) as [Hle|]; [|done].
  assert (e = 0) as -> by lia. unfold s, ceil_div.
  change (2 ^ (- 0)) with 1. rewrite Z.pow_0_r, Z.div_1_r. lia.
Qed.

(** [-1 / b] for [b >= 2] is a float in [(-1, 0]], whatever the size of
    [b]; its ceiling is 0. *)
Lemma true_divide_minus_one b :
  2 <= b -> exists x, true_divide (-1) b = Ret x /\ ceil x = 0.
Proof.
  intros Hb. unfold true_divide.
  destruct (Z.eqb_spec b 0) as [?|_]; [lia|].
  change (-1 =? 0) with false. change (-1 <? 0) with true.
  destruct (Z.ltb_spec b 0); [lia|]. cbn [xorb].
  change (Z.abs (-1)) with 1. rewrite (Z.abs_eq b) by lia.
  pose proof (quot_exponent_le 1 b) as Hqle.
  change (Z.log2 1) with 0 in Hqle.
  assert (Hlb : 1 <= Z.log2 b).
  { change 1 with (Z.log2 2). apply Z.log2_le_mono. lia. }
  set (qe := quot_exponent 1 b) in *.
  unfold mant_dig, min_expo.
  set (e := Z.max (qe - (53 - 1)) (-1074)).
  assert (He : e <= -53) by (unfold e; lia).
  rewrite (Z.max_r 0 (- e)), (Z.max_l 0 e) by lia.
  rewrite Z.pow_0_r, Z.mul_1_r, Z.mul_1_l.
  destruct (Z.leb_spec 0 e); [lia|]. cbn [andb].
  eexists; split; [done|].
  unfold ceil, floor_mag. cbn [negative mant expo].
  destruct (Z.leb_spec 0 e); [lia|].
  set (s := 2 ^ (- e)).
  assert (Hs : 4 <= s).
  { change 4 with (2 ^ 2). apply Z.pow_le_mono_r; lia. }
  pose proof (round_half_even_range s b ltac:(lia)) as [Hlo Hhi].
  assert (0 <= s / b) by (apply Z.div_pos; lia).
  assert (s / b <= s / 2).
  { apply Z.div_le_compat_l; lia. }
  assert (2 * (s / 2) <= s) by (apply Z.mul_div_le; lia).
  rewrite Z.div_small; lia.
Qed.

Lemma true_divide_zero b :
  b <> 0 -> exists x, true_divide 0 b = Ret x /\ ceil x = 0.
Proof.
  intros Hb. unfold true_divide.
  destruct (Z.eqb_spec b 0) as [?|_]; [lia|]. simpl.
  eexists; split; [done|]. unfold ceil. simpl. by case_match.
Qed.

End Division.

(** ** The padding calculator *)

(** Within the range where a float holds every integer, the padding
    calculator returns the values of the exact formula. *)
Lemma calculate_padding_exact (num_elements num_branches : Z) :
  0 <= num_elements <= 2 ^ 53 -> 2 <= num_branches <= 2 ^ 53 ->
  calculate_padding num_elements num_branches =
    Ret (ceil_div (num_elements - 1) (num_branches - 1),
         1 + (num_branches - 1) * ceil_div (num_elements - 1) (num_branches - 1)
           - num_elements).
Proof.
  intros Hn Hb. unfold calculate_padding.
  assert (exists x, PyFloat.true_divide (num_elements - 1) (num_branches - 1)
                    = Ret x /\
                    PyFloat.ceil x = ceil_div (num_elements - 1) (num_branches - 1))
    as (x & -> & Hx).
  { destruct (decide (num_elements = 0)) as [->|Hn0].
    - destruct (decide (num_branches = 2)) as [->|Hb2].
      + eexists; split; [vm_compute; reflexivity|reflexivity].
      + destruct (true_divide_minus_one (num_branches - 1)) as (x & Hx & Hc);
          [lia|].
        exists x. split; [exact Hx|]. rewrite Hc.
        unfold ceil_div. change (- (0 - 1)) with 1.
        rewrite Z.div_small; lia.
    - destruct (decide (num_elements = 1)) as [->|Hn1].
      + destruct (true_divide_zero (num_branches - 1)) as (x & Hx & Hc);
          [lia|].
        exists x. split; [exact Hx|]. rewrite Hc.
        unfold ceil_div. simpl. by rewrite Z.div_0_l by lia.
      + apply true_divide_ceil_pos; lia. }
  simpl. by rewrite Hx.
Qed.


(** ** The heap holds the same nodes after every operation *)

Section HeapqPermutation.
Context {A : Type} (lt : A -> A -> bool).
Implicit Types heap : list A.

Lemma insert_Permutation_cons heap j x y :
  heap !! j = Some y -> y :: <[j := x]> heap ≡ₚ x :: heap.
Proof.
  revert j. induction heap as [|z heap IH]; intros [|j] Hj; simplify_eq/=.
  - apply perm_swap.
  - rewrite (perm_swap z y). rewrite (IH j Hj). apply perm_swap.
Qed.

Lemma exchange_Permutation heap i j : exchange heap i j ≡ₚ heap.
Proof.
  unfold exchange.
  destruct (heap !! i) as [x|] eqn:Hi; [|done].
  destruct (heap !! j) as [y|] eqn:Hj; [|done].
  revert i j Hi Hj.
  induction heap as [|z heap IH]; intros [|i] [|j] Hi Hj; simplify_eq/=.
  - done.
  - by apply insert_Permutation_cons.
  - by apply insert_Permutation_cons.
  - f_equiv. by apply IH.
Qed.

Lemma exchange_length heap i j : length (exchange heap i j) = length heap.
Proof. apply Permutation_length, exchange_Permutation. Qed.

Lemma siftdown_Permutation fuel heap startpos pos :
  siftdown lt fuel heap startpos pos ≡ₚ heap.
Proof.
  revert heap pos. induction fuel as [|fuel IH]; intros heap pos; [done|].
  simpl. repeat case_match; try done.
  rewrite IH. apply exchange_Permutation.
Qed.

Lemma siftup_loop_Permutation fuel heap pos :
  (siftup_loop lt fuel heap pos).1 ≡ₚ heap.
Proof.
  revert heap pos. induction fuel as [|fuel IH]; intros heap pos; [done|].
  simpl. case_match; [|done].
  rewrite IH. apply exchange_Permutation.
Qed.

Lemma siftup_Permutation heap pos : siftup lt heap pos ≡ₚ heap.
Proof.
  unfold siftup.
  pose proof (siftup_loop_Permutation (length heap) heap pos) as Hloop.
  destruct (siftup_loop lt (length heap) heap pos) as [heap' leaf].
  by rewrite siftdown_Permutation.
Qed.

(** The fuel the sifting loops are given is enough: more changes nothing. *)
Lemma siftdown_fuel fuel fuel' heap startpos pos :
  (pos <= fuel)%nat -> (pos <= fuel')%nat ->
  siftdown lt fuel heap startpos pos = siftdown lt fuel' heap startpos pos.
Proof.
  revert fuel' heap pos.
  induction fuel as [|fuel IH]; intros [|fuel'] heap pos Hf Hf';
    cbn [siftdown];
    try done; try (rewrite decide_False by lia; done).
  case_decide; [|done]. case_match; [|done].
  assert ((pos - 1) / 2 < pos)%nat.
  { apply Nat.Div0.div_lt_upper_bound. lia. }
  apply IH; lia.
Qed.

Lemma siftup_loop_fuel fuel fuel' heap pos :
  (length heap - pos <= fuel)%nat -> (length heap - pos <= fuel')%nat ->
  siftup_loop lt fuel heap pos = siftup_loop lt fuel' heap pos.
Proof.
  revert fuel' heap pos.
  induction fuel as [|fuel IH]; intros [|fuel'] heap pos Hf Hf';
    cbn [siftup_loop];
    try done; try (rewrite decide_False by lia; done).
  case_decide; [|done].
  apply IH; rewrite exchange_length; case_match; lia.
Qed.

Lemma heappush_Permutation heap item :
  heappush lt heap item ≡ₚ item :: heap.
Proof.
  unfold heappush. rewrite siftdown_Permutation.
  symmetry. apply Permutation_cons_append.
Qed.

Lemma heappop_Permutation heap item heap' :
  heappop lt heap = Some (item, heap') -> heap ≡ₚ item :: heap'.
Proof.
  unfold heappop. destruct (last heap) as [lastelt|] eqn:Hlast; [|done].
  apply last_Some in Hlast as [front ->].
  rewrite removelast_last.
  destruct front as [|returnitem front]; intros; simplify_eq/=; [done|].
  rewrite siftup_Permutation. f_equiv.
  symmetry. apply Permutation_cons_append.
Qed.

Lemma heappop_is_Some heap :
  heap <> [] -> is_Some (heappop lt heap).
Proof.
  intros Hne. unfold heappop.
  destruct (last heap) as [lastelt|] eqn:Hlast.
  - by case_match.
  - by apply last_None in Hlast.
Qed.

Lemma heapify_Permutation heap : heapify lt heap ≡ₚ heap.
Proof.
  unfold heapify. generalize (reverse (seq 0 (length heap / 2))).
  intros positions. revert heap.
  induction positions as [|pos positions IH]; intros heap; [done|].
  simpl. rewrite IH. apply siftup_Permutation.
Qed.

End HeapqPermutation.

(** ** Induction on trees *)

Section NodeInduction.
Context (P : Node -> Prop).
Hypothesis step :
  forall c t ch, Forall P ch -> P (mkNode c t ch).

Fixpoint Node_nested_ind (node : Node) : P node :=
  match node with
  | mkNode c t ch =>
      step c t ch
        ((fix go (l : list Node) : Forall P l :=
            match l with
            | [] => Forall_nil_2 P
            | x :: l' => Forall_cons_2 P x l' (Node_nested_ind x) (go l')
            end) ch)
  end.
End NodeInduction.

Lemma node_all_unfold P node :
  node_all P node = P node && forallb (node_all P) (children node).
Proof. by destruct node. Qed.

Lemma node_all_impl (P Q : Node -> bool) node :
  (forall n, P n = true -> Q n = true) ->
  node_all P node = true -> node_all Q node = true.
Proof.
  intros HPQ. induction node as [c t ch IH] using Node_nested_ind.
  rewrite !node_all_unfold. simpl.
  intros [HP Hch]%andb_true_iff. apply andb_true_iff. split; [by apply HPQ|].
  apply forallb_forall. rewrite forallb_forall in Hch.
  rewrite Forall_forall in IH. intros x Hx.
  apply IH; [by apply list_elem_of_In|by apply Hch].
Qed.

Lemma labelled_unfold node :
  labelled node =
    match target node with Some t => [(t, count node)] | None => [] end
    ++ (children node ≫= labelled).
Proof. by destruct node. Qed.

Lemma sum_counts_app l1 l2 :
  sum_counts (l1 ++ l2) = sum_counts l1 + sum_counts l2.
Proof. induction l1 as [|x l1 IH]; simpl; lia. Qed.

#[local] Instance sum_counts_Permutation :
  Proper ((≡ₚ) ==> (=)) sum_counts.
Proof. induction 1; simpl; lia. Qed.

(** ** The merge engine *)

Lemma pop_smallest_spec k nodes merged_count merged_children :
  (k <= length nodes)%nat ->
  exists popped rest,
    pop_smallest k nodes merged_count merged_children
      = Ret (rest, merged_count + sum_counts popped, merged_children ++ popped)
    /\ nodes ≡ₚ popped ++ rest
    /\ length popped = k.
Proof.
  revert nodes merged_count merged_children.
  induction k as [|k IH]; intros nodes c ch Hk.
  - exists [], nodes. simpl. rewrite Z.add_0_r, app_nil_r. done.
  - simpl.
    destruct (heappop_is_Some node_lt nodes) as [[node nodes'] Hpop].
    { intros ->. simpl in Hk. lia. }
    rewrite Hpop. apply heappop_Permutation in Hpop.
    destruct (IH nodes' (c + count node) (ch ++ [node]))
      as (popped & rest & Heq & Hperm & Hlen).
    { apply Permutation_length in Hpop. simpl in Hpop. lia. }
    exists (node :: popped), rest. split_and!.
    + rewrite Heq. simpl. rewrite <- app_assoc. do 3 f_equal. lia.
    + rewrite Hpop, Hperm. done.
    + simpl. lia.
Qed.

(** A heap of [1 + (b - 1) * k] nodes is merged in [k] steps of exactly [b]
    nodes each; the root weighs what the heap weighed, carries the targets
    the heap carried, and has the shape of its parts. *)
Lemma merge_loop_spec (b : nat) (k : nat) :
  (2 <= b)%nat ->
  forall nodes fuel,
    length nodes = (1 + (b - 1) * k)%nat -> (k <= fuel)%nat ->
    exists root,
      merge_loop fuel nodes (Z.of_nat b) = Ret [root]
      /\ count root = sum_counts nodes
      /\ labelled root ≡ₚ nodes ≫= labelled
      /\ (Forall (λ n, node_all (merge_shape b) n = true) nodes ->
          node_all (merge_shape b) root = true).
Proof.
  intros Hb. induction k as [|k IH]; intros nodes fuel Hlen Hfuel.
  - destruct nodes as [|root [|??]]; simpl in Hlen; try lia.
    exists root. destruct fuel; simpl; split_and!; try done.
    + lia.
    + by rewrite app_nil_r.
    + by intros ?%Forall_inv.
    + lia.
    + by rewrite app_nil_r.
    + by intros ?%Forall_inv.
  - destruct fuel as [|fuel]; [lia|].
    assert (Hbig : (b <= length nodes)%nat) by nia.
    cbn [merge_loop]. rewrite decide_True by lia.
    replace (Z.to_nat (Z.min (Z.of_nat b) (Z.of_nat (length nodes))))
      with b by lia.
    destruct (pop_smallest_spec b nodes 0 [] Hbig)
      as (popped & rest & -> & Hperm & Hpopped).
    cbn. rewrite Z.add_0_l.
    set (merged := mkNode (sum_counts popped) None popped).
    pose proof (heappush_Permutation node_lt rest merged) as Hpush.
    destruct (IH (heappush node_lt rest merged) fuel)
      as (root & -> & Hcount & Hlab & Hshape); [|lia|].
    { rewrite (Permutation_length Hpush). simpl.
      apply Permutation_length in Hperm. rewrite length_app in Hperm. nia. }
    exists root. split_and!; [done|..].
    + rewrite Hcount, Hpush, Hperm, sum_counts_app. done.
    + rewrite Hlab, Hpush, Hperm, bind_app. simpl. done.
    + intros Hall. apply Hshape. rewrite Hpush.
      rewrite Hperm in Hall. apply Forall_app in Hall as [Hpop Hrest].
      constructor; [|done].
      rewrite node_all_unfold. apply andb_true_iff. split.
      * unfold merge_shape. cbn [merged target children].
        rewrite Hpopped, Nat.eqb_refl. apply orb_true_r.
      * simpl. apply forallb_forall. rewrite Forall_forall in Hpop.
        intros x Hx. apply Hpop. by apply list_elem_of_In.
Qed.

(** ** The uniqueness check of line 84 *)

Lemma size_list_to_set_le (symbols : list string) :
  (size (list_to_set symbols : gset string) <= length symbols)%nat.
Proof.
  induction symbols as [|s symbols IH].
  - done.
  - rewrite list_to_set_cons, size_union_alt, size_singleton.
    assert (Hsub : (list_to_set symbols ∖ {[s]} : gset string)
                   ⊆ list_to_set symbols) by set_solver.
    apply subseteq_size in Hsub. cbn [length]. lia.
Qed.

Lemma unique_symbols_iff (symbols : list string) :
  length symbols = size (list_to_set symbols : gset string) <-> NoDup symbols.
Proof.
  split; [|intros; symmetry; by apply size_list_to_set].
  induction symbols as [|s symbols IH]; [constructor|].
  rewrite list_to_set_cons. cbn [length].
  intros Hlen. pose proof (size_list_to_set_le symbols) as Hle.
  destruct (decide (s ∈ symbols)) as [Hin|Hnotin].
  - replace ({[s]} ∪ list_to_set symbols : gset string)
      with (list_to_set symbols : gset string) in Hlen by set_solver.
    lia.
  - rewrite size_union, size_singleton in Hlen by set_solver.
    constructor; [done|]. apply IH. lia.
Qed.

(** ** The tree builder *)

Lemma initial_sum_counts count_dict p :
  sum_counts ((leaf_of <$> count_dict) ++ replicate p padding_leaf)
  = sum_values count_dict.
Proof.
  rewrite sum_counts_app.
  assert (sum_counts (replicate p padding_leaf) = 0) as ->.
  { induction p as [|p IH]; simpl; lia. }
  rewrite Z.add_0_r.
  induction count_dict as [|[t c] count_dict IH]; [done|].
  rewrite fmap_cons. cbn [sum_counts sum_values foldr count leaf_of snd].
  fold (sum_counts (leaf_of <$> count_dict)). fold (sum_values count_dict).
  lia.
Qed.

Lemma initial_labelled count_dict p :
  ((leaf_of <$> count_dict) ++ replicate p padding_leaf) ≫= labelled
  = count_dict.
Proof.
  rewrite bind_app.
  assert (replicate p padding_leaf ≫= labelled = []) as ->.
  { induction p as [|p IH]; [done|]. by rewrite replicate_S, bind_cons, IH. }
  rewrite app_nil_r.
  induction count_dict as [|[t c] count_dict IH]; [done|].
  rewrite fmap_cons, bind_cons, IH. done.
Qed.

Lemma initial_shape b count_dict p :
  Forall (λ n, node_all (merge_shape b) n = true)
    ((leaf_of <$> count_dict) ++ replicate p padding_leaf).
Proof.
  apply Forall_app. split.
  - apply Forall_fmap, Forall_forall. by intros [t c] _.
  - apply Forall_replicate. done.
Qed.

Lemma build_huffman_tree_spec fuel count_dict symbols :
  NoDup symbols -> (2 <= length symbols)%nat ->
  exact_size (length symbols) -> exact_size (length count_dict) ->
  (length count_dict <= fuel)%nat ->
  (count_dict = [] /\ length symbols = 2%nat
   /\ build_huffman_tree fuel count_dict symbols = Ret None)
  \/ (~ (count_dict = [] /\ length symbols = 2%nat)
      /\ exists root,
          build_huffman_tree fuel count_dict symbols = Ret (Some root)
          /\ count root = sum_values count_dict
          /\ labelled root ≡ₚ count_dict
          /\ node_all (merge_shape (length symbols)) root = true).
Proof.
  intros Hnodup Hb Hbx Hnx Hfuel. unfold exact_size in *.
  unfold build_huffman_tree.
  rewrite decide_False by (intros Hne; by apply Hne, unique_symbols_iff).
  rewrite calculate_padding_exact by lia. cbn.
  set (n := Z.of_nat (length count_dict)).
  set (b := Z.of_nat (length symbols)).
  set (c := ceil_div (n - 1) (b - 1)).
  destruct (decide (count_dict = [] /\ length symbols = 2%nat))
    as [[-> Hb2]|Hgen].
  - left. split_and!; try done.
    unfold c, n, b. rewrite Hb2. by destruct fuel.
  - right. split; [done|].
    assert (Hc : 0 <= c <= n).
    { pose proof (ceil_div_bounds (n - 1) (b - 1) ltac:(lia)) as Hcb.
      fold c in Hcb. split; [|nia].
      destruct (decide (n = 0)) as [Hn0|Hn0]; [|nia].
      assert (count_dict = []) by (apply length_zero_iff_nil; lia).
      assert (length symbols <> 2%nat) by (intros ?; by apply Hgen).
      assert (2 <= b - 1) by lia. nia. }
    pose proof (ceil_div_bounds (n - 1) (b - 1) ltac:(lia)) as Hcb.
    fold c in Hcb.
    set (p := Z.to_nat (1 + (b - 1) * c - n)).
    set (nodes := (leaf_of <$> count_dict) ++ replicate p padding_leaf).
    pose proof (heapify_Permutation node_lt nodes) as Hheap.
    destruct (merge_loop_spec (length symbols) (Z.to_nat c) Hb
                (heapify node_lt nodes) fuel)
      as (root & Hloop & Hcount & Hlab & Hshape).
    { rewrite (Permutation_length Hheap). unfold nodes.
      rewrite length_app, length_fmap, length_replicate. unfold p. nia. }
    { lia. }
    exists root. unfold merge_nodes. fold p nodes. unfold b.
    rewrite Hloop. cbn.
    split_and!; [done|..].
    + rewrite Hcount, Hheap. apply initial_sum_counts.
    + rewrite Hlab, Hheap. unfold nodes. by rewrite initial_labelled.
    + apply Hshape. rewrite Hheap. apply initial_shape.
Qed.

Lemma merge_loop_fuel_mono fuel fuel' nodes b result :
  merge_loop fuel nodes b = Ret result -> (fuel <= fuel')%nat ->
  merge_loop fuel' nodes b = Ret result.
Proof.
  revert fuel' nodes. induction fuel as [|fuel IH]; intros fuel' nodes.
  - destruct fuel'; simpl; case_decide; done.
  - destruct fuel' as [|fuel']; [lia|]. cbn [merge_loop].
    case_decide; [|done].
    destruct (pop_smallest _ _ _ _) as [[[nodes' c] ch]| |]; cbn; try done.
    intros Hloop Hle. apply IH; [done|lia].
Qed.

Lemma merge_nodes_fuel_mono fuel fuel' nodes b result :
  merge_nodes fuel nodes b = Ret result -> (fuel <= fuel')%nat ->
  merge_nodes fuel' nodes b = Ret result.
Proof.
  unfold merge_nodes. intros Hret Hle.
  destruct (merge_loop fuel _ _) as [nodes'| |] eqn:Hloop; try done.
  by rewrite (merge_loop_fuel_mono _ _ _ _ _ Hloop Hle).
Qed.

Lemma build_huffman_tree_fuel_mono fuel fuel' count_dict symbols result :
  build_huffman_tree fuel count_dict symbols = Ret result ->
  (fuel <= fuel')%nat ->
  build_huffman_tree fuel' count_dict symbols = Ret result.
Proof.
  unfold build_huffman_tree. case_decide; [done|].
  destruct (calculate_padding _ _) as [[nbp npad]| |]; try done.
  apply merge_nodes_fuel_mono.
Qed.

(** ** The traversal *)

Section TraverseFacts.
Context (symbols : list string) (count_dict : list (string * Z)).

Lemma code_words_unfold node path :
  code_words symbols node path =
    match target node with Some t => [(path, t)] | None => [] end
    ++ words_of_children symbols (code_words symbols) path 0 (children node).
Proof. by destruct node. Qed.

Lemma traverse_unfold node path em :
  traverse symbols count_dict node path em =
    (em' ←
       match target node with
       | Some t =>
           match dict_get count_dict t with
           | Some c => Ret (<[path := (t, c)]> em)
           | None => Raise KeyError
           end
       | None => Ret em
       end;
     for_children symbols (traverse symbols count_dict) path 0
       (children node) em').
Proof. by destruct node. Qed.

Lemma for_children_words {N} (visit : N -> _) words path i chs em :
  (i + length chs <= length symbols)%nat ->
  Forall (λ ch, forall path em,
            visit ch path em
            = Ret (foldl (record count_dict) em (words ch path))) chs ->
  for_children symbols visit path i chs em
  = Ret (foldl (record count_dict) em
           (words_of_children symbols words path i chs)).
Proof.
  revert i em. induction chs as [|ch chs IH]; intros i em Hlen Hall; [done|].
  apply Forall_cons in Hall as [Hch Hall]. simpl in *.
  destruct (lookup_lt_is_Some_2 symbols i ltac:(lia)) as [s ->].
  rewrite Hch. cbn. rewrite IH by (done || lia).
  by rewrite foldl_app.
Qed.

(** With at most [len(symbols)] children per node and every target a key
    of [count_dict], the traversal returns, and records the code words in
    order. *)
Lemma traverse_words node :
  node_all (at_most_children (length symbols)) node = true ->
  Forall (λ t, is_Some (dict_get count_dict t)) (labelled node).*1 ->
  forall path em,
    traverse symbols count_dict node path em
    = Ret (foldl (record count_dict) em (code_words symbols node path)).
Proof.
  induction node as [c t ch IH] using Node_nested_ind.
  rewrite node_all_unfold, labelled_unfold. cbn [children target count].
  intros [Hfit Hfits]%andb_true_iff Hkeys path em.
  rewrite traverse_unfold, code_words_unfold. cbn [children target].
  rewrite fmap_app, Forall_app in Hkeys. destruct Hkeys as [Hkey Hkeys].
  assert (Hch : Forall (λ ch, forall path em,
                          traverse symbols count_dict ch path em
                          = Ret (foldl (record count_dict) em
                                   (code_words symbols ch path))) ch).
  { clear Hfit Hkey. induction IH as [|x ch Hx _ IHch]; [done|].
    simpl in Hfits. apply andb_true_iff in Hfits as [Hfx Hfits].
    rewrite bind_cons, fmap_app, Forall_app in Hkeys.
    destruct Hkeys as [Hkx Hkeys]. constructor; auto. }
  unfold at_most_children in Hfit. apply Nat.leb_le in Hfit. simpl in Hfit.
  rewrite foldl_app.
  destruct t as [t|]; cbn.
  - apply Forall_inv in Hkey as [cnt Hcnt]. simpl in Hcnt.
    rewrite Hcnt. cbn. unfold record at 2. simpl. rewrite Hcnt.
    by apply for_children_words.
  - by apply for_children_words.
Qed.

End TraverseFacts.

(** ** Code words *)

Lemma not_comparable_branches (path p q : list string) s s' :
  s <> s' -> (path ++ [s]) `prefix_of` p -> (path ++ [s']) `prefix_of` q ->
  ~ comparable p q.
Proof.
  intros Hne [p' ->] [q' ->] [[r Hr]|[r Hr]];
    rewrite <- !app_assoc in Hr; apply app_inv_head in Hr;
    simplify_eq/=.
Qed.

Lemma prefix_free_app l1 l2 :
  prefix_free l1 -> prefix_free l2 ->
  Forall (λ p, Forall (λ q, ~ comparable p q) l2) l1 ->
  prefix_free (l1 ++ l2).
Proof.
  induction 1 as [|p l1 Hp Hl1 IH]; intros Hl2 Hcross; [done|].
  apply Forall_cons in Hcross as [Hpl2 Hcross]. simpl.
  constructor; [|by apply IH]. by apply Forall_app.
Qed.

Lemma prefix_free_NoDup l : prefix_free l -> NoDup l.
Proof.
  induction 1 as [|p l Hp Hl IH]; constructor; [|done].
  intros Hin. rewrite Forall_forall in Hp. by apply (Hp p Hin); left.
Qed.

Lemma prefix_free_elem_of l p q :
  prefix_free l -> p ∈ l -> q ∈ l -> p <> q -> ~ comparable p q.
Proof.
  induction 1 as [|x l Hx Hl IH]; [by intros ?%elem_of_nil|].
  rewrite Forall_forall in Hx.
  intros [->|Hp]%elem_of_cons [->|Hq]%elem_of_cons Hne; try done.
  - by apply Hx.
  - intros [?|?]; apply (Hx p Hp); [by right|by left].
  - by apply IH.
Qed.

Section CodeWordFacts.
Context (symbols : list string).

Lemma words_of_children_extend {N} (words : N -> _) path i chs :
  Forall (λ ch, forall path,
            Forall (λ w, path `prefix_of` w.1) (words ch path)) chs ->
  Forall (λ w, exists j s, (i <= j)%nat /\ symbols !! j = Some s
                           /\ (path ++ [s]) `prefix_of` w.1)
    (words_of_children symbols words path i chs).
Proof.
  revert i. induction chs as [|ch chs IH]; intros i Hall; [done|].
  apply Forall_cons in Hall as [Hch Hall]. simpl.
  destruct (symbols !! i) as [s|] eqn:Hs; [|done].
  apply Forall_app. split.
  - eapply Forall_impl; [apply Hch|]. intros w Hw. by exists i, s.
  - eapply Forall_impl; [by apply IH|].
    intros w (j & s' & Hj & Hs' & Hw). exists j, s'. split; [lia|done].
Qed.

Lemma code_words_extend node :
  forall path,
    Forall (λ w, path `prefix_of` w.1) (code_words symbols node path).
Proof.
  induction node as [c t ch IH] using Node_nested_ind. intros path.
  rewrite code_words_unfold. cbn [target children].
  apply Forall_app. split.
  - destruct t; repeat constructor. done.
  - eapply Forall_impl;
      [apply (words_of_children_extend (code_words symbols) path 0 ch IH)|].
    intros w (j & s & _ & _ & Hw). cbn beta.
    etrans; [|exact Hw]. by apply prefix_app_r.
Qed.

Lemma words_of_children_prefix_free path i chs :
  NoDup symbols ->
  Forall (λ ch, forall path,
            prefix_free (code_words symbols ch path).*1) chs ->
  prefix_free (words_of_children symbols (code_words symbols) path i chs).*1.
Proof.
  intros Hnodup. revert i.
  induction chs as [|ch chs IH]; intros i Hall; [constructor|].
  apply Forall_cons in Hall as [Hch Hall]. simpl.
  destruct (symbols !! i) as [s|] eqn:Hs; [|constructor].
  rewrite fmap_app. apply prefix_free_app; [apply Hch|by apply IH|].
  apply Forall_fmap.
  eapply Forall_impl; [apply code_words_extend|].
  intros w Hw. cbn beta in *. apply Forall_fmap.
  eapply Forall_impl;
    [apply (words_of_children_extend (code_words symbols) path (S i) chs)|].
  { apply Forall_forall. intros ? _. apply code_words_extend. }
  intros w' (j & s' & Hj & Hs' & Hw'). cbn beta.
  eapply not_comparable_branches; [|exact Hw|exact Hw'].
  intros ->. pose proof (NoDup_lookup _ _ _ _ Hnodup Hs Hs'). lia.
Qed.

(** Distinct symbols and targets on leaves only: no code word is a prefix
    of another. *)
Lemma code_words_prefix_free node :
  NoDup symbols ->
  node_all target_is_leaf node = true ->
  forall path, prefix_free (code_words symbols node path).*1.
Proof.
  intros Hnodup. induction node as [c t ch IH] using Node_nested_ind.
  rewrite node_all_unfold. cbn [children].
  intros [Hleaf Hleaves]%andb_true_iff path.
  rewrite code_words_unfold. cbn [target children].
  destruct t as [t|].
  - unfold target_is_leaf, is_leaf in Hleaf. simpl in Hleaf.
    destruct ch; [|done]. repeat constructor.
  - simpl. apply words_of_children_prefix_free; [done|].
    clear Hleaf. induction IH as [|x ch Hx _ IHch]; [done|].
    simpl in Hleaves. apply andb_true_iff in Hleaves as [??].
    constructor; auto.
Qed.

Lemma words_of_children_targets path i chs :
  (i + length chs <= length symbols)%nat ->
  Forall (λ ch, forall path,
            (code_words symbols ch path).*2 = (labelled ch).*1) chs ->
  (words_of_children symbols (code_words symbols) path i chs).*2
  = (chs ≫= labelled).*1.
Proof.
  revert i. induction chs as [|ch chs IH]; intros i Hlen Hall; [done|].
  apply Forall_cons in Hall as [Hch Hall]. cbn [length] in Hlen.
  cbn [words_of_children].
  destruct (lookup_lt_is_Some_2 symbols i ltac:(lia)) as [s ->].
  rewrite bind_cons, !fmap_app, Hch, IH by (done || lia). done.
Qed.

(** The code words name the targets of the tree, in order. *)
Lemma code_words_targets node :
  node_all (at_most_children (length symbols)) node = true ->
  forall path, (code_words symbols node path).*2 = (labelled node).*1.
Proof.
  induction node as [c t ch IH] using Node_nested_ind.
  rewrite node_all_unfold. cbn [children].
  intros [Hfit Hfits]%andb_true_iff path.
  rewrite code_words_unfold, labelled_unfold. cbn [target children count].
  unfold at_most_children in Hfit. apply Nat.leb_le in Hfit. simpl in Hfit.
  rewrite !fmap_app, words_of_children_targets; [by destruct t|done|].
  clear Hfit. induction IH as [|x ch Hx _ IHch]; [done|].
  simpl in Hfits. apply andb_true_iff in Hfits as [??].
  constructor; auto.
Qed.

End CodeWordFacts.

(** ** The encoding map *)

Section EncodingMap.
Context (count_dict : list (string * Z)).
Implicit Types (em : gmap (list string) (string * Z)).
Implicit Types (words : list (list string * string)).

Lemma record_lookup em w p v :
  em !! w.1 = None ->
  record count_dict em w !! p = Some v
  <-> em !! p = Some v
      \/ (p = w.1 /\ exists c, v = (w.2, c)
                               /\ dict_get count_dict w.2 = Some c).
Proof.
  intros Hfresh. unfold record.
  destruct (dict_get count_dict w.2) as [c|] eqn:Hc.
  - destruct (decide (p = w.1)) as [->|Hne].
    + rewrite lookup_insert_eq, Hfresh. split.
      * intros [= <-]. right. split; [done|]. by exists c.
      * intros [?|[_ (c' & -> & [= ->])]]; done.
    + rewrite lookup_insert_ne by done. split; [by left|].
      by intros [?|[? _]].
  - split; [by left|]. by intros [?|[_ (c' & _ & ?)]].
Qed.

Lemma foldl_record_lookup words :
  forall em,
    NoDup words.*1 ->
    (forall p, p ∈ words.*1 -> em !! p = None) ->
    forall p v,
      foldl (record count_dict) em words !! p = Some v
      <-> em !! p = Some v
          \/ exists t c, v = (t, c) /\ (p, t) ∈ words
                         /\ dict_get count_dict t = Some c.
Proof.
  induction words as [|w words IH]; intros em Hnodup Hfresh p v.
  - simpl. split; [by left|].
    by intros [?|(t & c & _ & ?%elem_of_nil & _)].
  - rewrite fmap_cons in Hnodup, Hfresh.
    apply NoDup_cons in Hnodup as [Hw Hnodup].
    assert (Hemw : em !! w.1 = None) by (apply Hfresh; left).
    cbn [foldl]. rewrite IH; [|done|].
    + rewrite record_lookup by done. split.
      * intros [[?|[-> (c & -> & Hc)]]|(t & c & -> & Hin & Hc)].
        -- by left.
        -- right. exists w.2, c. split_and!; [done| |done].
           destruct w. left.
        -- right. exists t, c. split_and!; [done| |done]. by right.
      * intros [?|(t & c & -> & Hin & Hc)]; [by left; left|].
        apply elem_of_cons in Hin as [<-|Hin].
        -- left. right. split; [done|]. by exists c.
        -- right. by exists t, c.
    + intros q Hq. destruct (record count_dict em w !! q) as [x|] eqn:Hx;
        [|done].
      apply record_lookup in Hx as [Hx|[-> _]]; [|done|done].
      rewrite Hfresh in Hx; [done|by right].
Qed.

Lemma foldl_record_size words :
  forall em,
    NoDup words.*1 ->
    (forall p, p ∈ words.*1 -> em !! p = None) ->
    Forall (λ t, is_Some (dict_get count_dict t)) words.*2 ->
    size (foldl (record count_dict) em words)
    = (size em + length words)%nat.
Proof.
  induction words as [|w words IH]; intros em Hnodup Hfresh Hkeys.
  - simpl. lia.
  - rewrite fmap_cons in Hnodup, Hfresh. rewrite fmap_cons in Hkeys.
    apply NoDup_cons in Hnodup as [Hw Hnodup].
    apply Forall_cons in Hkeys as [[c Hc] Hkeys].
    assert (Hemw : em !! w.1 = None) by (apply Hfresh; left).
    cbn [foldl length]. rewrite IH; [|done| |done].
    + unfold record. rewrite Hc, map_size_insert_None by done. lia.
    + intros q Hq. unfold record. rewrite Hc.
      rewrite lookup_insert_ne by (intros <-; done).
      apply Hfresh. by right.
Qed.

End EncodingMap.

Lemma dict_get_is_Some count_dict t :
  t ∈ count_dict.*1 -> is_Some (dict_get count_dict t).
Proof.
  induction count_dict as [|[k v] count_dict IH]; [by intros ?%elem_of_nil|].
  simpl. intros Hin. case_decide; [done|].
  apply elem_of_cons in Hin as [?|?]; [done|by apply IH].
Qed.

Lemma dict_get_elem_of count_dict t c :
  dict_get count_dict t = Some c -> (t, c) ∈ count_dict.
Proof.
  induction count_dict as [|[k v] count_dict IH]; [done|].
  simpl. case_decide; [intros [= ->]; subst; left|right; by apply IH].
Qed.

Lemma dict_get_unique count_dict t c :
  unique_keys count_dict -> (t, c) ∈ count_dict ->
  dict_get count_dict t = Some c.
Proof.
  unfold unique_keys.
  induction count_dict as [|[k v] count_dict IH]; [by intros _ ?%elem_of_nil|].
  rewrite fmap_cons. intros [Hk Hnodup]%NoDup_cons Hin. simpl in *.
  apply elem_of_cons in Hin as [[= -> ->]|Hin].
  - by rewrite decide_True.
  - rewrite decide_False; [by apply IH|].
    intros ->. apply Hk. apply list_elem_of_fmap. by exists (t, c).
Qed.

Lemma NoDup_snd_inj {A B} (l : list (A * B)) x x' y :
  NoDup l.*2 -> (x, y) ∈ l -> (x', y) ∈ l -> x = x'.
Proof.
  induction l as [|[a b] l IH]; [by intros _ ?%elem_of_nil|].
  rewrite fmap_cons. intros [Hb Hnodup]%NoDup_cons H1 H2. simpl in Hb.
  apply elem_of_cons in H1 as [H1|H1]; apply elem_of_cons in H2 as [H2|H2].
  - by simplify_eq.
  - simplify_eq. destruct Hb. apply list_elem_of_fmap. by exists (x', b).
  - simplify_eq. destruct Hb. apply list_elem_of_fmap. by exists (x, b).
  - by apply IH.
Qed.

Lemma merge_shape_target_is_leaf b node :
  merge_shape b node = true -> target_is_leaf node = true.
Proof.
  unfold merge_shape, target_is_leaf.
  destruct (target node); [|done].
  rewrite bool_decide_eq_false_2 by done. by rewrite orb_false_r.
Qed.

Lemma merge_shape_internal_has b node :
  merge_shape b node = true -> internal_has b node = true.
Proof.
  unfold merge_shape, internal_has.
  intros [->|[_ ->]%andb_true_iff]%orb_true_iff; [done|apply orb_true_r].
Qed.

Lemma merge_shape_at_most_children b node :
  merge_shape b node = true -> at_most_children b node = true.
Proof.
  unfold merge_shape, at_most_children, is_leaf.
  intros [Hleaf|[_ Hlen]%andb_true_iff]%orb_true_iff.
  - destruct (children node); [|done]. apply Nat.leb_le. simpl. lia.
  - apply Nat.eqb_eq in Hlen. apply Nat.leb_le. lia.
Qed.

(** The traversal of a tree of the merge engine, over the alphabet the tree
    was built for. *)
Lemma generate_encoding_map_spec symbols count_dict root :
  NoDup symbols ->
  node_all (merge_shape (length symbols)) root = true ->
  labelled root ≡ₚ count_dict ->
  exists em,
    generate_encoding_map_with_count (Some root) symbols count_dict = Ret em
    /\ prefix_free_map em
    /\ (unique_keys count_dict -> one_entry_per_target count_dict em).
Proof.
  intros Hnodup Hshape Hlab.
  pose proof (node_all_impl _ _ root (merge_shape_at_most_children _) Hshape)
    as Hfits.
  pose proof (node_all_impl _ _ root (merge_shape_target_is_leaf _) Hshape)
    as Hleaves.
  set (words := code_words symbols root []).
  assert (Htargets : words.*2 ≡ₚ count_dict.*1).
  { unfold words. rewrite code_words_targets by done. by rewrite Hlab. }
  assert (Hkeys : Forall (λ t, is_Some (dict_get count_dict t)) words.*2).
  { apply Forall_forall. intros t Ht. apply dict_get_is_Some.
    by rewrite <- Htargets. }
  pose proof (code_words_prefix_free symbols root Hnodup Hleaves []) as Hpf.
  fold words in Hpf.
  pose proof (prefix_free_NoDup _ Hpf) as Hnd.
  assert (Hlookup : forall p v,
             foldl (record count_dict) ∅ words !! p = Some v
             <-> exists t c, v = (t, c) /\ (p, t) ∈ words
                             /\ dict_get count_dict t = Some c).
  { intros p v. rewrite foldl_record_lookup; [|done|by intros].
    rewrite lookup_empty. split; [by intros [?|?]|by right]. }
  exists (foldl (record count_dict) ∅ words). split_and!.
  - simpl. apply traverse_words; [done|].
    unfold words in Hkeys. by rewrite code_words_targets in Hkeys.
  - intros p q [vp Hp] [vq Hq] Hne Hprefix.
    apply Hlookup in Hp as (tp & cp & _ & Hp & _).
    apply Hlookup in Hq as (tq & cq & _ & Hq & _).
    apply (prefix_free_elem_of words.*1 p q Hpf); [| |done|by left].
    + apply list_elem_of_fmap. by exists (p, tp).
    + apply list_elem_of_fmap. by exists (q, tq).
  - intros Huniq. split_and!.
    + rewrite foldl_record_size by (done || by intros).
      rewrite map_size_empty.
      apply Permutation_length in Htargets.
      rewrite !length_fmap in Htargets. lia.
    + intros t c Hin.
      assert (t ∈ words.*2) as ([p t'] & -> & Hw)%list_elem_of_fmap.
      { rewrite Htargets. apply list_elem_of_fmap. by exists (t, c). }
      simpl in *. exists p. split.
      * apply Hlookup. exists t', c. split_and!; [done..|].
        by apply dict_get_unique.
      * intros p' v (t2 & c2 & -> & Hw2 & _)%Hlookup Ht2. simpl in Ht2.
        subst t2. apply (NoDup_snd_inj words p' p t'); [|done..].
        rewrite Htargets. exact Huniq.
    + intros p v (t & c & -> & _ & Hc)%Hlookup.
      by apply dict_get_elem_of.
Qed.

(** ** Exceptions of the later stages *)

Lemma calculate_padding_raises num_elements num_branches e :
  calculate_padding num_elements num_branches = Raise e ->
  e = ZeroDivisionError \/ e = OverflowError.
Proof.
  unfold calculate_padding, PyFloat.true_divide.
  repeat case_match; cbn; intros; simplify_eq; auto.
Qed.

Lemma pop_smallest_raises k nodes merged_count merged_children e :
  pop_smallest k nodes merged_count merged_children = Raise e ->
  e = IndexError.
Proof.
  revert nodes merged_count merged_children.
  induction k as [|k IH]; intros nodes c ch; simpl; [done|].
  destruct (heappop node_lt nodes) as [[node nodes']|]; [apply IH|].
  by intros [= <-].
Qed.

Lemma merge_nodes_raises fuel nodes num_branches e :
  merge_nodes fuel nodes num_branches = Raise e -> e = IndexError.
Proof.
  unfold merge_nodes. generalize (heapify node_lt nodes). clear nodes.
  assert (forall nodes, merge_loop fuel nodes num_branches = Raise e ->
                        e = IndexError) as Hloop.
  { induction fuel as [|fuel IH]; intros nodes; simpl;
      case_decide; try done.
    destruct (pop_smallest _ _ _ _) as [[[nodes' c] ch]|e'|] eqn:Hpop;
      cbn; try done.
    - apply IH.
    - intros [= <-]. by apply pop_smallest_raises in Hpop. }
  intros nodes.
  destruct (merge_loop fuel nodes num_branches) as [l|e'|] eqn:Hl;
    cbn; try done.
  intros [= <-]. by apply Hloop in Hl.
Qed.

(** ** The builder on its degenerate inputs *)

Lemma merge_nodes_singleton fuel node num_branches :
  merge_nodes fuel [node] num_branches = Ret (Some node).
Proof. by destruct fuel. Qed.

Lemma build_huffman_tree_empty fuel symbols :
  NoDup symbols -> (3 <= length symbols)%nat ->
  build_huffman_tree fuel [] symbols = Ret (Some padding_leaf).
Proof.
  intros Hnodup Hlen. unfold build_huffman_tree.
  rewrite decide_False by (intros Hne; by apply Hne, unique_symbols_iff).
  unfold calculate_padding. cbn [length].
  destruct (true_divide_minus_one (Z.of_nat (length symbols) - 1))
    as (x & Hx & Hceil); [lia|].
  change (Z.of_nat 0 - 1) with (-1). rewrite Hx. cbn. rewrite Hceil.
  replace (Z.to_nat _) with 1%nat by lia.
  apply merge_nodes_singleton.
Qed.

(** Without branches a merge step removes nothing and adds a node: the loop
    of line 61 never ends on two nodes or more. *)
Lemma merge_nodes_no_branches fuel nodes :
  (2 <= length nodes)%nat -> merge_nodes fuel nodes 0 = OutOfFuel.
Proof.
  intros Hlen. unfold merge_nodes.
  pose proof (Permutation_length (heapify_Permutation node_lt nodes)) as Hh.
  assert (forall heap, (2 <= length heap)%nat ->
                       merge_loop fuel heap 0 = OutOfFuel) as Hloop.
  { clear. induction fuel as [|fuel IH]; intros heap Hlen;
      cbn [merge_loop]; rewrite decide_True by lia; [done|].
    replace (Z.to_nat (Z.min 0 (Z.of_nat (length heap)))) with 0%nat by lia.
    cbn. apply IH.
    rewrite (Permutation_length (heappush_Permutation _ _ _)). simpl. lia. }
  rewrite Hloop by lia. done.
Qed.

Lemma build_huffman_tree_no_symbols fuel :
  build_huffman_tree fuel [("x", 7); ("y", 1)]%string [] = OutOfFuel.
Proof.
  unfold build_huffman_tree. rewrite decide_False by (intros Hne; by apply Hne).
  change (calculate_padding _ _) with (Ret (A:=Z * Z) (-1, 0)). cbn.
  by apply merge_nodes_no_branches.
Qed.

Lemma build_huffman_tree_unary fuel count_dict s :
  build_huffman_tree fuel count_dict [s] = Raise ZeroDivisionError.
Proof.
  unfold build_huffman_tree. rewrite decide_False.
  - done.
  - intros Hne. apply Hne, unique_symbols_iff, NoDup_singleton.
Qed.

(** * The claims of the specification *)

Lemma ternary_NoDup : NoDup ternary.
Proof. apply (bool_decide_unpack _). by vm_compute. Qed.

Lemma binary_NoDup : NoDup binary.
Proof. apply (bool_decide_unpack _). by vm_compute. Qed.

Lemma sample_counts_unique : unique_keys sample_counts.
Proof. apply (bool_decide_unpack _). by vm_compute. Qed.

(** C1. For every frequency table and every duplicate-free alphabet of at
    least two symbols (both of a size a float holds exactly),
    [build_huffman_tree] returns, and in the encoding map that
    [generate_encoding_map_with_count] produces from its result no code word
    is a prefix of another one.  The only input without a map is the empty
    table with a two-symbol alphabet, where no tree is built. *)
Theorem encoding_map_prefix_free fuel count_dict symbols :
  NoDup symbols -> (2 <= length symbols)%nat ->
  exact_size (length symbols) -> exact_size (length count_dict) ->
  (length count_dict <= fuel)%nat ->
  exists root,
    build_huffman_tree fuel count_dict symbols = Ret root
    /\ match generate_encoding_map_with_count root symbols count_dict with
       | Ret em => prefix_free_map em
       | Raise e =>
           count_dict = [] /\ length symbols = 2%nat /\ root = None
       | OutOfFuel => False
       end.
Proof.
  intros Hnodup Hb Hbx Hnx Hfuel.
  destruct (build_huffman_tree_spec fuel count_dict symbols)
    as [(-> & Hb2 & Hbuild)|(_ & root & Hbuild & _ & Hlab & Hshape)];
    try done.
  - by exists None.
  - exists (Some root). split; [done|].
    destruct (generate_encoding_map_spec symbols count_dict root)
      as (em & -> & Hpf & _); done.
Qed.

Lemma encoding_map_prefix_free_witness :
  exists root,
    build_huffman_tree 6 sample_counts ternary = Ret root
    /\ match generate_encoding_map_with_count root ternary sample_counts with
       | Ret em => prefix_free_map em
       | Raise e =>
           sample_counts = [] /\ length ternary = 2%nat /\ root = None
       | OutOfFuel => False
       end.
Proof.
  apply encoding_map_prefix_free.
  - exact ternary_NoDup.
  - simpl. lia.
  - unfold exact_size. simpl. lia.
  - unfold exact_size. simpl. lia.
  - simpl. lia.
Defined.

(** C2. For every frequency table and every duplicate-free alphabet of
    [num_branches >= 2] symbols, every node with at least one child in the
    tree that [build_huffman_tree] returns has exactly [num_branches]
    children: every merge step took exactly [num_branches] nodes.  No tree
    is returned for the empty table with two symbols only. *)
Theorem internal_nodes_have_num_branches_children fuel count_dict symbols :
  NoDup symbols -> (2 <= length symbols)%nat ->
  exact_size (length symbols) -> exact_size (length count_dict) ->
  (length count_dict <= fuel)%nat ->
  exists result,
    build_huffman_tree fuel count_dict symbols = Ret result
    /\ (forall root, result = Some root ->
          node_all (internal_has (length symbols)) root = true)
    /\ (result = None <-> count_dict = [] /\ length symbols = 2%nat).
Proof.
  intros Hnodup Hb Hbx Hnx Hfuel.
  destruct (build_huffman_tree_spec fuel count_dict symbols)
    as [(-> & Hb2 & Hbuild)|(Hgen & root & Hbuild & _ & _ & Hshape)];
    try done.
  - exists None. split_and!; done.
  - exists (Some root). split_and!; [done| |done].
    intros ? [= <-].
    by apply (node_all_impl _ _ root (merge_shape_internal_has _)).
Qed.

Lemma internal_nodes_have_num_branches_children_witness :
  exists result,
    build_huffman_tree 6 sample_counts ternary = Ret result
    /\ (forall root, result = Some root ->
          node_all (internal_has (length ternary)) root = true)
    /\ (result = None <-> sample_counts = [] /\ length ternary = 2%nat).
Proof.
  apply internal_nodes_have_num_branches_children.
  - exact ternary_NoDup.
  - simpl. lia.
  - unfold exact_size. simpl. lia.
  - unfold exact_size. simpl. lia.
  - simpl. lia.
Defined.

(** C3, as the code has it.  For [0 <= num_elements <= 2 ^ 53] and
    [2 <= num_branches <= 2 ^ 53], [calculate_padding] returns
    [num_branch_points], the ceiling of
    [(num_elements - 1) / (num_branches - 1)], and
    [num_padding = 1 + (num_branches - 1) * num_branch_points - num_elements];
    it returns [(2, 0)] for [(5, 3)] and [(2, 1)] for [(4, 3)]. *)
Theorem calculate_padding_formula num_elements num_branches :
  0 <= num_elements <= 2 ^ 53 -> 2 <= num_branches <= 2 ^ 53 ->
  (exists num_branch_points num_padding,
      calculate_padding num_elements num_branches
      = Ret (num_branch_points, num_padding)
      /\ num_branch_points = ceil_div (num_elements - 1) (num_branches - 1)
      /\ (num_branch_points - 1) * (num_branches - 1) < num_elements - 1
         <= num_branch_points * (num_branches - 1)
      /\ num_padding
         = 1 + (num_branches - 1) * num_branch_points - num_elements)
  /\ calculate_padding 5 3 = Ret (2, 0)
  /\ calculate_padding 4 3 = Ret (2, 1).
Proof.
  intros Hn Hb. split; [|done].
  eexists _, _. split; [by apply calculate_padding_exact|].
  split; [done|]. split; [|done].
  apply ceil_div_bounds. lia.
Qed.

Lemma calculate_padding_formula_witness :
  (exists num_branch_points num_padding,
      calculate_padding 7 4 = Ret (num_branch_points, num_padding)
      /\ num_branch_points = ceil_div (7 - 1) (4 - 1)
      /\ (num_branch_points - 1) * (4 - 1) < 7 - 1
         <= num_branch_points * (4 - 1)
      /\ num_padding = 1 + (4 - 1) * num_branch_points - 7)
  /\ calculate_padding 5 3 = Ret (2, 0)
  /\ calculate_padding 4 3 = Ret (2, 1).
Proof. apply calculate_padding_formula; lia. Defined.

(** C3 as stated fails beyond the integers a float holds exactly: for
    [num_elements = 2 ^ 53 + 2] and [num_branches = 2] the quotient
    [2 ^ 53 + 1] is rounded to [2 ^ 53], and the padding is negative. *)
Lemma calculate_padding_formula_fails_when_rounded :
  2 ^ 53 + 2 >= 0 /\ 2 >= 2
  /\ calculate_padding (2 ^ 53 + 2) 2 = Ret (2 ^ 53, -1)
  /\ ceil_div (2 ^ 53 + 2 - 1) (2 - 1) = 2 ^ 53 + 1
  /\ calculate_padding (2 ^ 53 + 2) 2
     <> Ret (ceil_div (2 ^ 53 + 2 - 1) (2 - 1),
             1 + (2 - 1) * ceil_div (2 ^ 53 + 2 - 1) (2 - 1) - (2 ^ 53 + 2)).
Proof. split_and!; done. Qed.

(** C4. For every frequency table with distinct targets and every
    duplicate-free alphabet of at least two symbols, the encoding map has
    exactly one entry per target of the table, and the entry of a target maps
    its code word to the target and its count in the table.  The only input
    without a map is the empty table with a two-symbol alphabet. *)
Theorem encoding_map_one_entry_per_target fuel count_dict symbols :
  unique_keys count_dict ->
  NoDup symbols -> (2 <= length symbols)%nat ->
  exact_size (length symbols) -> exact_size (length count_dict) ->
  (length count_dict <= fuel)%nat ->
  exists root,
    build_huffman_tree fuel count_dict symbols = Ret root
    /\ match generate_encoding_map_with_count root symbols count_dict with
       | Ret em => one_entry_per_target count_dict em
       | Raise e =>
           count_dict = [] /\ length symbols = 2%nat /\ root = None
       | OutOfFuel => False
       end.
Proof.
  intros Huniq Hnodup Hb Hbx Hnx Hfuel.
  destruct (build_huffman_tree_spec fuel count_dict symbols)
    as [(-> & Hb2 & Hbuild)|(_ & root & Hbuild & _ & Hlab & Hshape)];
    try done.
  - by exists None.
  - exists (Some root). split; [done|].
    destruct (generate_encoding_map_spec symbols count_dict root)
      as (em & -> & _ & Hone); auto.
Qed.

Lemma encoding_map_one_entry_per_target_witness :
  exists root,
    build_huffman_tree 6 sample_counts ternary = Ret root
    /\ match generate_encoding_map_with_count root ternary sample_counts with
       | Ret em => one_entry_per_target sample_counts em
       | Raise e =>
           sample_counts = [] /\ length ternary = 2%nat /\ root = None
       | OutOfFuel => False
       end.
Proof.
  apply encoding_map_one_entry_per_target.
  - exact sample_counts_unique.
  - exact ternary_NoDup.
  - simpl. lia.
  - unfold exact_size. simpl. lia.
  - unfold exact_size. simpl. lia.
  - simpl. lia.
Defined.

(** C5. For every non-empty frequency table and every duplicate-free
    alphabet of at least two symbols, the root that [build_huffman_tree]
    returns has the sum of all counts of the table as its count. *)
Theorem root_count_is_total fuel count_dict symbols :
  count_dict <> [] ->
  NoDup symbols -> (2 <= length symbols)%nat ->
  exact_size (length symbols) -> exact_size (length count_dict) ->
  (length count_dict <= fuel)%nat ->
  exists root,
    build_huffman_tree fuel count_dict symbols = Ret (Some root)
    /\ count root = sum_values count_dict.
Proof.
  intros Hne Hnodup Hb Hbx Hnx Hfuel.
  destruct (build_huffman_tree_spec fuel count_dict symbols)
    as [(-> & _)|(_ & root & Hbuild & Hcount & _)]; try done.
  by exists root.
Qed.

Lemma root_count_is_total_witness :
  exists root,
    build_huffman_tree 6 sample_counts binary = Ret (Some root)
    /\ count root = sum_values sample_counts.
Proof.
  apply root_count_is_total.
  - discriminate.
  - exact binary_NoDup.
  - simpl. lia.
  - unfold exact_size. simpl. lia.
  - unfold exact_size. simpl. lia.
  - simpl. lia.
Defined.

(** C6, as the code has it.  For every frequency table, building a tree
    with an alphabet of exactly one symbol fails with the division by zero
    of [calculate_padding]; the size of the alphabet is not checked
    otherwise. *)
Theorem unary_alphabet_raises_zero_division fuel count_dict s :
  build_huffman_tree fuel count_dict [s] = Raise ZeroDivisionError.
Proof. apply build_huffman_tree_unary. Qed.

(** C6 as stated fails for the empty alphabet: the empty table and a table
    of one target are built without any error, already with no fuel. *)
Lemma empty_alphabet_is_not_rejected :
  (length (@nil string) < 2)%nat
  /\ build_huffman_tree 0 [] [] = Ret None
  /\ build_huffman_tree 0 [("x", 7)]%string []
     = Ret (Some (mkNode 7 (Some "x"%string) []))
  /\ forall e, build_huffman_tree 0 [] [] <> Raise e.
Proof. split_and!; try done. simpl. lia. Qed.

(** C7. [build_huffman_tree] raises the error of line 85 exactly when the
    symbols list has a repeated symbol; with a repeated symbol this is the
    outcome for every frequency table and every amount of fuel, none
    included: the check comes before the padding, the nodes and the merge
    loop. *)
Theorem duplicate_symbols_iff_value_error symbols :
  (forall fuel count_dict,
      build_huffman_tree fuel count_dict symbols = Raise ValueError
      <-> ~ NoDup symbols)
  /\ (~ NoDup symbols <->
      forall fuel count_dict,
        build_huffman_tree fuel count_dict symbols = Raise ValueError).
Proof.
  assert (Hiff : forall fuel count_dict,
             build_huffman_tree fuel count_dict symbols = Raise ValueError
             <-> ~ NoDup symbols).
  { intros fuel count_dict. unfold build_huffman_tree.
    case_decide as Hcheck; rewrite unique_symbols_iff in Hcheck.
    - done.
    - split; [|done].
      destruct (calculate_padding _ _) as [[nbp npad]|e|] eqn:Hpad; cbn.
      + by intros ?%merge_nodes_raises.
      + intros [= ->]. by apply calculate_padding_raises in Hpad as [?|?].
      + done. }
  split; [done|]. split.
  - intros Hdup fuel count_dict. by apply Hiff.
  - intros Hall. apply (Hiff 0%nat []), Hall.
Qed.

(** C8, as the code has it.  [calculate_padding(0, num_branches)] is never
    an error for [num_branches >= 2]; it returns [(0, 1)] for
    [num_branches >= 3], and [(-1, 0)] for [num_branches = 2], where the
    quotient [-1 / 1] is its own ceiling. *)
Theorem calculate_padding_no_elements num_branches :
  2 <= num_branches ->
  calculate_padding 0 num_branches
  = Ret (if num_branches =? 2 then (-1, 0) else (0, 1)).
Proof.
  intros Hb. destruct (Z.eqb_spec num_branches 2) as [->|Hne]; [done|].
  unfold calculate_padding.
  destruct (true_divide_minus_one (num_branches - 1)) as (x & Hx & Hceil);
    [lia|].
  change (0 - 1) with (-1). rewrite Hx. cbn. rewrite Hceil.
  do 2 f_equal. lia.
Qed.

Lemma calculate_padding_no_elements_witness :
  calculate_padding 0 5 = Ret (if 5 =? 2 then (-1, 0) else (0, 1)).
Proof. apply calculate_padding_no_elements. lia. Defined.

(** C8 as stated fails for two branches. *)
Lemma calculate_padding_no_elements_binary :
  2 >= 2
  /\ calculate_padding 0 2 = Ret (-1, 0)
  /\ calculate_padding 0 2 <> Ret (0, 1).
Proof. split_and!; done. Qed.

(** C9, as the code has it.  For a duplicate-free alphabet of three symbols
    or more, the empty frequency table gives a one-node tree whose root has
    no target, and the encoding map of that tree is empty; for an alphabet
    of two symbols [build_huffman_tree] returns [None]. *)
Theorem empty_table_tree fuel symbols :
  NoDup symbols -> (2 <= length symbols)%nat ->
  if decide (length symbols = 2%nat)
  then build_huffman_tree fuel [] symbols = Ret None
  else exists root,
      build_huffman_tree fuel [] symbols = Ret (Some root)
      /\ target root = None /\ children root = []
      /\ generate_encoding_map_with_count (Some root) symbols [] = Ret ∅.
Proof.
  intros Hnodup Hlen. case_decide as Hb2.
  - destruct (build_huffman_tree_spec fuel [] symbols)
      as [(_ & _ & Hbuild)|(Hgen & _)];
      try done; try (unfold exact_size; simpl; lia).
    by destruct Hgen.
  - exists padding_leaf. split; [|done].
    apply build_huffman_tree_empty; [done|lia].
Qed.

Lemma empty_table_tree_witness :
  if decide (length ternary = 2%nat)
  then build_huffman_tree 0 [] ternary = Ret None
  else exists root,
      build_huffman_tree 0 [] ternary = Ret (Some root)
      /\ target root = None /\ children root = []
      /\ generate_encoding_map_with_count (Some root) ternary [] = Ret ∅.
Proof.
  apply empty_table_tree.
  - exact ternary_NoDup.
  - simpl. lia.
Defined.

(** C9 as stated fails for two symbols: no tree is returned, and the
    traversal of [None] raises. *)
Lemma empty_table_binary_has_no_tree :
  NoDup binary /\ (2 <= length binary)%nat
  /\ build_huffman_tree 0 [] binary = Ret None
  /\ generate_encoding_map_with_count None binary [] = Raise AttributeError.
Proof. split_and!; try done. exact binary_NoDup. Qed.

(** C10. In every tree that [build_huffman_tree] returns for a
    duplicate-free symbols list of at least two symbols, every node has at
    most [len(symbols)] children and every node with a target has none;
    [generate_encoding_map_with_count] with the same symbols list returns a
    map: [symbols[i]] is never out of range. *)
Theorem traversal_is_total fuel count_dict symbols root :
  NoDup symbols -> (2 <= length symbols)%nat ->
  exact_size (length symbols) -> exact_size (length count_dict) ->
  build_huffman_tree fuel count_dict symbols = Ret (Some root) ->
  node_all (at_most_children (length symbols)) root = true
  /\ node_all target_is_leaf root = true
  /\ exists em,
      generate_encoding_map_with_count (Some root) symbols count_dict
      = Ret em.
Proof.
  intros Hnodup Hb Hbx Hnx Hbuild.
  apply (build_huffman_tree_fuel_mono _ (fuel `max` length count_dict))
    in Hbuild; [|lia].
  destruct (build_huffman_tree_spec (fuel `max` length count_dict)
              count_dict symbols)
    as [(_ & _ & Hnone)|(_ & root' & Hbuild' & _ & Hlab & Hshape)];
    try done; try lia.
  - by rewrite Hnone in Hbuild.
  - rewrite Hbuild' in Hbuild. injection Hbuild as ->. split_and!.
    + eapply node_all_impl; [apply merge_shape_at_most_children|done].
    + eapply node_all_impl; [apply merge_shape_target_is_leaf|done].
    + destruct (generate_encoding_map_spec symbols count_dict root)
        as (em & Hem & _); eauto.
Qed.

Lemma traversal_is_total_witness :
  exists root,
    build_huffman_tree 6 sample_counts ternary = Ret (Some root)
    /\ node_all (at_most_children (length ternary)) root = true
    /\ node_all target_is_leaf root = true
    /\ exists em,
        generate_encoding_map_with_count (Some root) ternary sample_counts
        = Ret em.
Proof.
  eexists. split; [vm_compute; reflexivity|].
  apply (traversal_is_total 6 sample_counts).
  - exact ternary_NoDup.
  - simpl. lia.
  - unfold exact_size. simpl. lia.
  - unfold exact_size. simpl. lia.
  - vm_compute. reflexivity.
Defined.

(** * Further properties of the code *)

(** ** The merge engine on any list of nodes *)

(** Whatever every merged node satisfies, given that its children do, holds
    of every node left when the loop ends. *)
Lemma merge_loop_invariant (P : Node -> Prop) (b : Z) :
  (forall popped len,
      (2 <= len)%nat ->
      length popped = Z.to_nat (Z.min b (Z.of_nat len)) ->
      Forall P popped -> P (mkNode (sum_counts popped) None popped)) ->
  forall fuel nodes result,
    Forall P nodes -> merge_loop fuel nodes b = Ret result ->
    Forall P result.
Proof.
  intros Hstep. induction fuel as [|fuel IH]; intros nodes result Hall;
    cbn [merge_loop]; case_decide as Hlen; try done;
    try (by intros [= <-]).
  destruct (pop_smallest_spec
              (Z.to_nat (Z.min b (Z.of_nat (length nodes)))) nodes 0 [])
    as (popped & rest & -> & Hperm & Hpopped); [lia|].
  cbn. rewrite Z.add_0_l. apply IH.
  rewrite heappush_Permutation. rewrite Hperm in Hall.
  apply Forall_app in Hall as [Hpop Hrest]. constructor; [|done].
  apply (Hstep popped (length nodes)); [lia|done|done].
Qed.

Lemma merge_loop_total (b : Z) :
  2 <= b ->
  forall fuel nodes,
    (length nodes - 1 <= fuel)%nat ->
    exists result,
      merge_loop fuel nodes b = Ret result
      /\ length result = (length nodes `min` 1)%nat
      /\ sum_counts result = sum_counts nodes
      /\ result ≫= labelled ≡ₚ nodes ≫= labelled.
Proof.
  intros Hb. induction fuel as [|fuel IH]; intros nodes Hfuel;
    cbn [merge_loop]; case_decide as Hlen; try lia;
    try (exists nodes; split_and!; [done|lia|done|done]).
  set (k := Z.to_nat (Z.min b (Z.of_nat (length nodes)))).
  destruct (pop_smallest_spec k nodes 0 [])
    as (popped & rest & -> & Hperm & Hpopped); [lia|].
  cbn. rewrite Z.add_0_l.
  set (merged := mkNode (sum_counts popped) None popped).
  pose proof (heappush_Permutation node_lt rest merged) as Hpush.
  pose proof (Permutation_length Hperm) as Hlenperm.
  rewrite length_app in Hlenperm.
  destruct (IH (heappush node_lt rest merged))
    as (result & -> & Hres & Hsum & Hlab).
  { rewrite (Permutation_length Hpush). simpl. lia. }
  exists result. split_and!; [done|..].
  - rewrite Hres, (Permutation_length Hpush). simpl. lia.
  - rewrite Hsum, Hpush, Hperm, sum_counts_app. done.
  - rewrite Hlab, Hpush, Hperm, bind_app. simpl. done.
Qed.


Lemma merged_shape_step (b : Z) popped len :
  2 <= b -> (2 <= len)%nat ->
  length popped = Z.to_nat (Z.min b (Z.of_nat len)) ->
  Forall (λ n, node_all (merged_shape (Z.to_nat b)) n = true) popped ->
  node_all (merged_shape (Z.to_nat b)) (mkNode (sum_counts popped) None popped)
  = true.
Proof.
  intros Hb Hlen Hpopped Hall. rewrite node_all_unfold.
  apply andb_true_iff. split.
  - unfold merged_shape. cbn [target children].
    apply orb_true_iff. right. rewrite bool_decide_eq_true_2 by done.
    apply andb_true_iff. split; [apply Nat.leb_le|apply Nat.leb_le]; lia.
  - cbn [children]. apply forallb_forall. rewrite Forall_forall in Hall.
    intros x Hx. apply Hall. by apply list_elem_of_In.
Qed.

(** [merge_nodes] with [num_branches >= 2] returns for every list of nodes,
    after at most [len(nodes) - 1] iterations: [None] for the empty list
    only, and otherwise one root that weighs what the nodes weighed, carries
    their targets, and whose merged nodes have between two and
    [num_branches] children. *)
Theorem merge_nodes_returns fuel nodes (num_branches : Z) :
  2 <= num_branches -> (length nodes - 1 <= fuel)%nat ->
  exists result,
    merge_nodes fuel nodes num_branches = Ret result
    /\ (result = None <-> nodes = [])
    /\ forall root, result = Some root ->
         count root = sum_counts nodes
         /\ labelled root ≡ₚ nodes ≫= labelled
         /\ (Forall (λ n, node_all (merged_shape (Z.to_nat num_branches)) n
                          = true) nodes ->
             node_all (merged_shape (Z.to_nat num_branches)) root = true).
Proof.
  intros Hb Hfuel. unfold merge_nodes.
  pose proof (heapify_Permutation node_lt nodes) as Hheap.
  destruct (merge_loop_total num_branches Hb fuel (heapify node_lt nodes))
    as (result & Hloop & Hlen & Hsum & Hlab).
  { rewrite (Permutation_length Hheap). lia. }
  rewrite Hloop. cbn. exists (head result). split; [done|].
  rewrite (Permutation_length Hheap) in Hlen.
  destruct result as [|root [|??]]; simpl in Hlen; try lia.
  - split.
    + split; [|done]. intros _. destruct nodes; [done|simpl in Hlen; lia].
    + by intros root [=].
  - split.
    + split; [done|]. intros ->. simpl in Hlen. lia.
    + intros ? [= <-]. split_and!.
      * rewrite <- Hheap, <- Hsum. simpl. lia.
      * rewrite <- Hheap, <- Hlab. simpl. by rewrite app_nil_r.
      * intros Hall.
        assert (Forall (λ n, node_all (merged_shape (Z.to_nat num_branches)) n
                             = true) [root]) as Hroot; [|by inversion Hroot].
        eapply (merge_loop_invariant _ num_branches); [|..|exact Hloop].
        -- intros popped len ???. by eapply merged_shape_step.
        -- by rewrite Hheap.
Qed.

Lemma merge_nodes_returns_witness :
  exists result,
    merge_nodes 1 [mkNode 3 (Some "a"%string) []; mkNode 4 None []] 5
    = Ret result
    /\ (result = None
        <-> [mkNode 3 (Some "a"%string) []; mkNode 4 None []] = [])
    /\ forall root, result = Some root ->
         count root
         = sum_counts [mkNode 3 (Some "a"%string) []; mkNode 4 None []]
         /\ labelled root
            ≡ₚ [mkNode 3 (Some "a"%string) []; mkNode 4 None []] ≫= labelled
         /\ (Forall (λ n, node_all (merged_shape (Z.to_nat 5)) n = true)
               [mkNode 3 (Some "a"%string) []; mkNode 4 None []] ->
             node_all (merged_shape (Z.to_nat 5)) root = true).
Proof. apply merge_nodes_returns; simpl; lia. Defined.

(** With [num_branches <= 1] a merge step removes at most one node and adds
    one: on two nodes or more the loop of line 61 never ends. *)
Theorem merge_nodes_diverges fuel nodes (num_branches : Z) :
  num_branches <= 1 -> (2 <= length nodes)%nat ->
  merge_nodes fuel nodes num_branches = OutOfFuel.
Proof.
  intros Hb Hlen. unfold merge_nodes.
  pose proof (Permutation_length (heapify_Permutation node_lt nodes)) as Hh.
  assert (forall heap, (2 <= length heap)%nat ->
                       merge_loop fuel heap num_branches = OutOfFuel)
    as Hloop.
  { clear -Hb. induction fuel as [|fuel IH]; intros heap Hlen;
      cbn [merge_loop]; rewrite decide_True by lia; [done|].
    set (k := Z.to_nat (Z.min num_branches (Z.of_nat (length heap)))).
    destruct (pop_smallest_spec k heap 0 [])
      as (popped & rest & -> & Hperm & Hpopped); [lia|].
    cbn. apply IH.
    rewrite (Permutation_length (heappush_Permutation _ _ _)).
    apply Permutation_length in Hperm. rewrite length_app in Hperm.
    simpl. lia. }
  rewrite Hloop by lia. done.
Qed.

Lemma merge_nodes_diverges_witness :
  merge_nodes 100 [mkNode 3 None []; mkNode 4 None []] 1 = OutOfFuel.
Proof. apply merge_nodes_diverges; simpl; lia. Defined.

(** ** Invariants of the trees that are built *)

(** What holds of the leaves and is kept by a merge step holds of the root
    that [build_huffman_tree] returns. *)
Lemma build_huffman_tree_invariant (P : Node -> Prop)
    fuel count_dict symbols root :
  Forall (λ item, P (leaf_of item)) count_dict ->
  P padding_leaf ->
  (forall popped len,
      (2 <= len)%nat ->
      length popped
      = Z.to_nat (Z.min (Z.of_nat (length symbols)) (Z.of_nat len)) ->
      Forall P popped -> P (mkNode (sum_counts popped) None popped)) ->
  build_huffman_tree fuel count_dict symbols = Ret (Some root) ->
  P root.
Proof.
  intros Hleaves Hpad Hstep. unfold build_huffman_tree.
  case_decide; [done|].
  destruct (calculate_padding _ _) as [[nbp npad]| |]; try done.
  cbn. unfold merge_nodes.
  destruct (merge_loop _ _ _) as [result| |] eqn:Hloop; try done.
  cbn. intros [= Hhead].
  assert (Forall P result) as Hall.
  { eapply merge_loop_invariant; [exact Hstep| |exact Hloop].
    rewrite heapify_Permutation. apply Forall_app. split.
    - by apply Forall_fmap.
    - by apply Forall_replicate. }
  destruct result as [|x result]; simplify_eq/=. by inversion Hall.
Qed.

Lemma count_le_sum_counts popped x :
  Forall (λ n, 0 <= count n) popped -> x ∈ popped ->
  0 <= sum_counts popped /\ count x <= sum_counts popped.
Proof.
  induction 1 as [|y popped Hy Hall IH]; [by intros ?%elem_of_nil|].
  assert (0 <= sum_counts popped).
  { clear -Hall. induction Hall; simpl; lia. }
  intros [->|Hin]%elem_of_cons; simpl; [lia|].
  destruct (IH Hin). lia.
Qed.

(** In every tree that [build_huffman_tree] returns, whatever the alphabet,
    the count of a node with children is the sum of the counts of its
    children; when no count of the table is negative, no count in the tree
    is, and no child outweighs its parent. *)
Theorem built_tree_weights fuel count_dict symbols root :
  build_huffman_tree fuel count_dict symbols = Ret (Some root) ->
  node_all weight_is_sum root = true
  /\ (Forall (λ item, 0 <= item.2) count_dict ->
      node_all weight_dominates root = true).
Proof.
  intros Hbuild. split.
  - eapply (build_huffman_tree_invariant
              (λ n, node_all weight_is_sum n = true)); [| | |exact Hbuild].
    + apply Forall_forall. by intros [t c] _.
    + done.
    + intros popped len _ _ Hall. rewrite node_all_unfold.
      apply andb_true_iff. split.
      * unfold weight_is_sum. cbn [count children].
        rewrite Z.eqb_refl. apply orb_true_r.
      * cbn [children]. apply forallb_forall. rewrite Forall_forall in Hall.
        intros x Hx. apply Hall. by apply list_elem_of_In.
  - intros Hpos.
    eapply (build_huffman_tree_invariant
              (λ n, node_all weight_dominates n = true)); [| | |exact Hbuild].
    + eapply Forall_impl; [exact Hpos|]. intros [t c] Hc. simpl in *.
      unfold weight_dominates. simpl. rewrite andb_true_r.
      apply andb_true_iff. split; [|done]. by apply Z.leb_le.
    + done.
    + intros popped len _ _ Hall.
      assert (Forall (λ n, 0 <= count n) popped) as Hcounts.
      { eapply Forall_impl; [exact Hall|]. intros n Hn. cbn beta in Hn.
        rewrite node_all_unfold in Hn.
        apply andb_true_iff in Hn as [Hn _]. unfold weight_dominates in Hn.
        apply andb_true_iff in Hn as [Hn _]. by apply Z.leb_le. }
      rewrite node_all_unfold. apply andb_true_iff. split.
      * unfold weight_dominates. cbn [count children].
        apply andb_true_iff. split.
        -- apply Z.leb_le. destruct popped as [|x popped]; [done|].
           apply (count_le_sum_counts _ x Hcounts). left.
        -- apply forallb_forall. intros x Hx%list_elem_of_In.
           apply Z.leb_le. by apply count_le_sum_counts.
      * cbn [children]. apply forallb_forall. rewrite Forall_forall in Hall.
        intros x Hx. apply Hall. by apply list_elem_of_In.
Qed.

Lemma built_tree_weights_witness :
  exists root,
    build_huffman_tree 6 sample_counts ternary = Ret (Some root)
    /\ node_all weight_is_sum root = true
    /\ (Forall (λ item, 0 <= item.2) sample_counts ->
        node_all weight_dominates root = true).
Proof.
  eexists. split; [vm_compute; reflexivity|].
  apply (built_tree_weights 6 sample_counts ternary).
  vm_compute. reflexivity.
Defined.

(** ** The padding *)

(** For a non-empty table the padding completes the leaves to one more than
    a multiple of [num_branches - 1], with fewer than [num_branches - 1]
    leaves: none for two branches. *)
Theorem calculate_padding_range num_elements num_branches :
  1 <= num_elements <= 2 ^ 53 -> 2 <= num_branches <= 2 ^ 53 ->
  exists num_branch_points num_padding,
    calculate_padding num_elements num_branches
    = Ret (num_branch_points, num_padding)
    /\ 0 <= num_branch_points <= num_elements - 1
    /\ 0 <= num_padding <= num_branches - 2
    /\ num_elements + num_padding
       = 1 + (num_branches - 1) * num_branch_points.
Proof.
  intros Hn Hb. rewrite calculate_padding_exact by lia.
  eexists _, _. split; [done|].
  pose proof (ceil_div_bounds (num_elements - 1) (num_branches - 1)
                ltac:(lia)) as Hc.
  set (c := ceil_div (num_elements - 1) (num_branches - 1)) in *.
  assert (0 <= c) by nia. assert (c <= num_elements - 1) by nia.
  split_and!; lia.
Qed.

Lemma calculate_padding_range_witness :
  exists num_branch_points num_padding,
    calculate_padding 6 3 = Ret (num_branch_points, num_padding)
    /\ 0 <= num_branch_points <= 6 - 1
    /\ 0 <= num_padding <= 3 - 2
    /\ 6 + num_padding = 1 + (3 - 1) * num_branch_points.
Proof. apply calculate_padding_range; lia. Defined.

(** ** The nodes of the trees that are built *)

Lemma count_nodes_unfold P node :
  count_nodes P node
  = ((if P node then 1 else 0)
     + sum_list (count_nodes P <$> children node))%nat.
Proof. by destruct node. Qed.

Lemma sum_list_count_nodes_Permutation P (l1 l2 : list Node) :
  l1 ≡ₚ l2 ->
  sum_list (count_nodes P <$> l1) = sum_list (count_nodes P <$> l2).
Proof.
  induction 1; rewrite ?fmap_cons; cbn [sum_list_with id] in *; lia.
Qed.

(** Each merge step adds one node with children; [P] is [delta] on it and
    the nodes below it are those of the nodes it takes. *)
Lemma merge_loop_count_nodes (P : Node -> bool) (delta : bool) (b k : nat) :
  (2 <= b)%nat ->
  (forall c ch, ch <> [] -> P (mkNode c None ch) = delta) ->
  forall nodes fuel root,
    length nodes = (1 + (b - 1) * k)%nat ->
    merge_loop fuel nodes (Z.of_nat b) = Ret [root] ->
    count_nodes P root
    = ((if delta then k else 0) + sum_list (count_nodes P <$> nodes))%nat.
Proof.
  intros Hb Hdelta. induction k as [|k IH]; intros nodes fuel root Hlen.
  - destruct nodes as [|x [|??]]; simpl in Hlen; try lia.
    destruct fuel; simpl; intros [= ->]; destruct delta; lia.
  - assert (Hbig : (b <= length nodes)%nat) by nia.
    destruct fuel as [|fuel]; cbn [merge_loop]; rewrite decide_True by lia;
      [done|].
    replace (Z.to_nat (Z.min (Z.of_nat b) (Z.of_nat (length nodes))))
      with b by lia.
    destruct (pop_smallest_spec b nodes 0 [] Hbig)
      as (popped & rest & -> & Hperm & Hpopped).
    cbn. rewrite Z.add_0_l.
    set (merged := mkNode (sum_counts popped) None popped).
    pose proof (heappush_Permutation node_lt rest merged) as Hpush.
    intros Hloop. apply IH in Hloop.
    + rewrite Hloop, (sum_list_count_nodes_Permutation _ _ _ Hpush),
        (sum_list_count_nodes_Permutation _ _ _ Hperm).
      rewrite fmap_cons, fmap_app, sum_list_with_app.
      cbn [sum_list_with id].
      unfold merged at 1. rewrite count_nodes_unfold. cbn [children].
      rewrite Hdelta by (intros ->; simpl in Hpopped; lia).
      destruct delta; simpl; lia.
    + rewrite (Permutation_length Hpush). simpl.
      apply Permutation_length in Hperm. rewrite length_app in Hperm. nia.
Qed.

Lemma initial_count_nodes (P : Node -> bool) count_dict p :
  sum_list (count_nodes P <$>
              ((leaf_of <$> count_dict) ++ replicate p padding_leaf))
  = (sum_list ((λ item, if P (leaf_of item) then 1 else 0) <$> count_dict)
     + (if P padding_leaf then p else 0))%nat.
Proof.
  rewrite fmap_app, sum_list_with_app. f_equal.
  - induction count_dict as [|[t c] count_dict IH]; [done|].
    rewrite !fmap_cons. cbn [sum_list_with id]. rewrite IH.
    rewrite count_nodes_unfold. simpl. lia.
  - induction p as [|p IH]; [by destruct (P padding_leaf)|].
    rewrite replicate_S, fmap_cons. cbn [sum_list_with id]. rewrite IH.
    rewrite count_nodes_unfold. simpl. destruct (P padding_leaf); lia.
Qed.

Lemma node_counts_of_built_tree fuel count_dict symbols root :
  NoDup symbols -> (2 <= length symbols)%nat ->
  exact_size (length symbols) -> exact_size (length count_dict) ->
  build_huffman_tree fuel count_dict symbols = Ret (Some root) ->
  exists num_branch_points num_padding,
    calculate_padding (Z.of_nat (length count_dict))
      (Z.of_nat (length symbols))
    = Ret (num_branch_points, num_padding)
    /\ count_nodes is_internal root = Z.to_nat num_branch_points
    /\ count_nodes is_padding root = Z.to_nat num_padding
    /\ count_nodes is_target_leaf root = length count_dict.
Proof.
  intros Hnodup Hb Hbx Hnx Hbuild. unfold exact_size in *.
  destruct (decide (count_dict = [] /\ length symbols = 2%nat))
    as [[-> Hb2]|Hgen].
  { destruct (build_huffman_tree_spec fuel [] symbols)
      as [(_ & _ & Hnone)|(Hgen & _)]; try done; try (simpl; lia).
    - by rewrite Hnone in Hbuild.
    - by destruct Hgen. }
  revert Hbuild. unfold build_huffman_tree.
  rewrite decide_False by (intros Hne; by apply Hne, unique_symbols_iff).
  rewrite calculate_padding_exact by lia. cbn.
  set (n := Z.of_nat (length count_dict)).
  set (b := Z.of_nat (length symbols)).
  set (c := ceil_div (n - 1) (b - 1)).
  pose proof (ceil_div_bounds (n - 1) (b - 1) ltac:(lia)) as Hcb.
  fold c in Hcb.
  assert (Hc : 0 <= c).
  { destruct (decide (n = 0)) as [Hn0|Hn0]; [|nia].
    assert (count_dict = []) by (apply length_zero_iff_nil; lia).
    assert (length symbols <> 2%nat) by (intros ?; by apply Hgen).
    assert (2 <= b - 1) by lia. nia. }
  set (p := Z.to_nat (1 + (b - 1) * c - n)).
  set (nodes := (leaf_of <$> count_dict) ++ replicate p padding_leaf).
  unfold merge_nodes.
  destruct (merge_loop fuel (heapify node_lt nodes) b)
    as [result| |] eqn:Hloop; cbn; try done.
  intros [= Hhead].
  pose proof (heapify_Permutation node_lt nodes) as Hheap.
  assert (Hlen : length (heapify node_lt nodes)
                 = (1 + (length symbols - 1) * Z.to_nat c)%nat).
  { rewrite (Permutation_length Hheap). unfold nodes.
    rewrite length_app, length_fmap, length_replicate. unfold p. nia. }
  destruct (merge_loop_spec (length symbols) (Z.to_nat c) Hb
              (heapify node_lt nodes) (fuel `max` Z.to_nat c) Hlen)
    as (root' & Hloop' & _); [lia|].
  apply (merge_loop_fuel_mono _ (fuel `max` Z.to_nat c)) in Hloop; [|lia].
  unfold b in Hloop. rewrite Hloop' in Hloop. injection Hloop as <-.
  injection Hhead as ->.
  eexists _, _. split; [done|].
  split_and!.
  - rewrite (merge_loop_count_nodes is_internal true _ _ Hb
               ltac:(by intros ? [|??]) _ _ _ Hlen Hloop').
    rewrite (sum_list_count_nodes_Permutation _ _ _ Hheap).
    unfold nodes. rewrite initial_count_nodes. simpl.
    assert (sum_list ((λ item : string * Z,
                if is_internal (leaf_of item) then 1 else 0) <$> count_dict)
            = 0)%nat as ->; [|lia].
    clear. induction count_dict as [|[t c] l IH]; [done|].
    rewrite fmap_cons. cbn [sum_list_with id]. rewrite IH. done.
  - rewrite (merge_loop_count_nodes is_padding false _ _ Hb
               ltac:(by intros ? [|??]) _ _ _ Hlen Hloop').
    rewrite (sum_list_count_nodes_Permutation _ _ _ Hheap).
    unfold nodes. rewrite initial_count_nodes. simpl.
    assert (sum_list ((λ item : string * Z,
                if is_padding (leaf_of item) then 1 else 0) <$> count_dict)
            = 0)%nat as ->; [|unfold p; lia].
    clear. induction count_dict as [|[t c] l IH]; [done|].
    rewrite fmap_cons. cbn [sum_list_with id]. rewrite IH. done.
  - rewrite (merge_loop_count_nodes is_target_leaf false _ _ Hb
               ltac:(by intros ? [|??]) _ _ _ Hlen Hloop').
    rewrite (sum_list_count_nodes_Permutation _ _ _ Hheap).
    unfold nodes. rewrite initial_count_nodes. simpl.
    assert (sum_list ((λ item : string * Z,
                if is_target_leaf (leaf_of item) then 1 else 0) <$> count_dict)
            = length count_dict)%nat as ->; [|lia].
    clear. induction count_dict as [|[t c] l IH]; [done|].
    rewrite fmap_cons. cbn [sum_list_with id length]. rewrite IH. done.
Qed.

(** The tree that [build_huffman_tree] returns has [num_branch_points]
    nodes with children, [num_padding] leaves without target and one leaf
    with a target per item of the table, for the values that
    [calculate_padding] returns. *)
Theorem built_tree_node_counts fuel count_dict symbols root :
  NoDup symbols -> (2 <= length symbols)%nat ->
  exact_size (length symbols) -> exact_size (length count_dict) ->
  build_huffman_tree fuel count_dict symbols = Ret (Some root) ->
  exists num_branch_points num_padding,
    calculate_padding (Z.of_nat (length count_dict))
      (Z.of_nat (length symbols))
    = Ret (num_branch_points, num_padding)
    /\ count_nodes is_internal root = Z.to_nat num_branch_points
    /\ count_nodes is_padding root = Z.to_nat num_padding
    /\ count_nodes is_target_leaf root = length count_dict.
Proof. apply node_counts_of_built_tree. Qed.

Lemma built_tree_node_counts_witness :
  exists root num_branch_points num_padding,
    build_huffman_tree 6 sample_counts ternary = Ret (Some root)
    /\ calculate_padding (Z.of_nat (length sample_counts))
         (Z.of_nat (length ternary))
       = Ret (num_branch_points, num_padding)
    /\ count_nodes is_internal root = Z.to_nat num_branch_points
    /\ count_nodes is_padding root = Z.to_nat num_padding
    /\ count_nodes is_target_leaf root = length sample_counts.
Proof.
  eexists.
  eassert (Hbuild : build_huffman_tree 6 sample_counts ternary
                    = Ret (Some _)) by (vm_compute; reflexivity).
  edestruct (built_tree_node_counts 6 sample_counts ternary)
    as (nbp & npad & H); [| | | |exact Hbuild|].
  - exact ternary_NoDup.
  - simpl. lia.
  - unfold exact_size. simpl. lia.
  - unfold exact_size. simpl. lia.
  - exists nbp, npad. split; [exact Hbuild|exact H].
Defined.

(** ** Errors of the padding calculator *)

(** [calculate_padding] raises nothing but [ZeroDivisionError] and
    [OverflowError]; it divides by zero for one branch, whatever the number
    of elements, and for one branch only. *)
Theorem calculate_padding_errors num_elements num_branches :
  (forall e, calculate_padding num_elements num_branches = Raise e ->
             e = ZeroDivisionError \/ e = OverflowError)
  /\ (calculate_padding num_elements num_branches = Raise ZeroDivisionError
      <-> num_branches = 1)
  /\ calculate_padding num_elements num_branches <> OutOfFuel.
Proof.
  split_and!.
  - intros e. apply calculate_padding_raises.
  - unfold calculate_padding, PyFloat.true_divide.
    destruct (Z.eqb_spec (num_branches - 1) 0) as [Heq|Hne].
    + split; [lia|done].
    + split; [|lia]. repeat case_match; cbn; done.
  - unfold calculate_padding, PyFloat.true_divide.
    repeat case_match; cbn; done.
Qed.

Section Overflow.
Import PyFloat.

Lemma quot_exponent_lower x y :
  0 < x -> 0 < y -> 0 <= quot_exponent x y ->
  y * 2 ^ quot_exponent x y <= x.
Proof.
  intros Hx Hy. unfold quot_exponent.
  pose proof (Z.log2_spec x Hx) as [Hxl Hxu].
  pose proof (Z.log2_spec y Hy) as [Hyl Hyu].
  pose proof (Z.log2_nonneg x). pose proof (Z.log2_nonneg y).
  set (lx := Z.log2 x) in *. set (ly := Z.log2 y) in *.
  destruct (Z.ltb_spec (x * 2 ^ Z.max 0 (- (lx - ly)))
              (y * 2 ^ Z.max 0 (lx - ly))) as [Hlt|Hge]; intros Hq.
  - assert (y * 2 ^ (lx - ly - 1) < 2 ^ Z.succ ly * 2 ^ (lx - ly - 1)).
    { apply Z.mul_lt_mono_pos_r; [|done]. apply Z.pow_pos_nonneg; lia. }
    rewrite <- Z.pow_add_r in *; try lia.
    replace (Z.succ ly + (lx - ly - 1)) with lx in * by lia. lia.
  - rewrite (Z.max_l 0 (- (lx - ly))) in Hge by lia.
    rewrite (Z.max_r 0 (lx - ly)) in Hge by lia.
    rewrite Z.pow_0_r in Hge. lia.
Qed.

Lemma quot_exponent_large x y k :
  0 < x -> 0 < y -> 0 <= k -> y * 2 ^ k <= x -> k <= quot_exponent x y.
Proof.
  intros Hx Hy Hk Hbig. unfold quot_exponent.
  pose proof (Z.log2_spec x Hx) as [Hxl Hxu].
  pose proof (Z.log2_spec y Hy) as [Hyl Hyu].
  pose proof (Z.log2_nonneg x). pose proof (Z.log2_nonneg y).
  set (lx := Z.log2 x) in *. set (ly := Z.log2 y) in *.
  assert (Hd : k <= lx - ly).
  { destruct (Z.le_gt_cases k (lx - ly)) as [|Hgt]; [done|exfalso].
    assert (2 ^ Z.succ lx <= 2 ^ (ly + k)) by (apply Z.pow_le_mono_r; lia).
    rewrite Z.pow_add_r in * by lia.
    assert (2 ^ ly * 2 ^ k <= y * 2 ^ k); [|lia].
    apply Z.mul_le_mono_nonneg_r; [|done]. apply Z.pow_nonneg; lia. }
  destruct (Z.ltb_spec (x * 2 ^ Z.max 0 (- (lx - ly)))
              (y * 2 ^ Z.max 0 (lx - ly))) as [Hlt|Hge]; [|done].
  rewrite (Z.max_l 0 (- (lx - ly))) in Hlt by lia.
  rewrite (Z.max_r 0 (lx - ly)) in Hlt by lia.
  rewrite Z.pow_0_r in Hlt.
  destruct (decide (k = lx - ly)) as [->|]; [lia|lia].
Qed.

Lemma true_divide_overflow a b :
  0 < b -> b * 2 ^ max_exp <= a -> true_divide a b = Raise OverflowError.
Proof.
  intros Hb Hbig. unfold true_divide.
  assert (0 < 2 ^ max_exp) by (apply Z.pow_pos_nonneg; unfold max_exp; lia).
  assert (Ha : 0 < a) by nia.
  destruct (Z.eqb_spec b 0) as [?|_]; [lia|].
  destruct (Z.eqb_spec a 0) as [?|_]; [lia|].
  rewrite !Z.abs_eq by lia.
  pose proof (quot_exponent_large a b max_exp Ha Hb ltac:(unfold max_exp; lia)
                Hbig) as Hq.
  pose proof (quot_exponent_lower a b Ha Hb ltac:(unfold max_exp in *; lia))
    as Hlow.
  set (qe := quot_exponent a b) in *.
  unfold mant_dig, min_expo, max_exp in *.
  rewrite (Z.max_l (qe - (53 - 1)) (-1074)) by lia.
  set (e := qe - (53 - 1)).
  assert (He : 972 <= e) by (unfold e; lia).
  rewrite (Z.max_l 0 (- e)), (Z.max_r 0 e) by lia.
  rewrite Z.pow_0_r, Z.mul_1_r.
  assert (Hpe : 0 < 2 ^ e) by (apply Z.pow_pos_nonneg; lia).
  pose proof (round_half_even_range a (b * 2 ^ e) ltac:(nia)) as [Hm _].
  set (m := round_half_even a (b * 2 ^ e)) in *.
  assert (Hq52 : 2 ^ 52 <= a / (b * 2 ^ e)).
  { apply Z.div_le_lower_bound; [nia|].
    replace qe with (52 + e) in Hlow by (unfold e; lia).
    rewrite Z.pow_add_r in Hlow by lia. lia. }
  assert (Hov : 2 ^ 1024 <= m * 2 ^ e).
  { replace 1024 with (52 + 972) by lia.
    assert (2 ^ 972 <= 2 ^ e) by (apply Z.pow_le_mono_r; lia).
    rewrite Z.pow_add_r by lia.
    apply Z.mul_le_mono_nonneg; lia. }
  destruct (Z.leb_spec 0 e); [|lia].
  destruct (Z.leb_spec (2 ^ 1024) (m * 2 ^ e)); [done|lia].
Qed.

End Overflow.

(** A quotient too large for a float is an [OverflowError]: the padding of
    [2 ^ 1024] elements or more per branch is not computed. *)
Theorem calculate_padding_overflow num_elements num_branches :
  2 <= num_branches ->
  (num_branches - 1) * 2 ^ 1024 <= num_elements - 1 ->
  calculate_padding num_elements num_branches = Raise OverflowError.
Proof.
  intros Hb Hbig. unfold calculate_padding.
  rewrite true_divide_overflow; [done|lia|exact Hbig].
Qed.

Lemma calculate_padding_overflow_witness :
  calculate_padding (2 ^ 1024 + 1) 2 = Raise OverflowError.
Proof. apply calculate_padding_overflow; [lia|]. by vm_compute. Defined.

(** ** The builder on alphabets and tables at the edge *)

Lemma true_divide_by_minus_one a :
  1 <= a < 2 ^ 53 ->
  exists x, PyFloat.true_divide a (-1) = Ret x /\ PyFloat.ceil x = - a.
Proof.
  intros Ha. unfold PyFloat.true_divide.
  change (-1 =? 0) with false. change (-1 <? 0) with true.
  destruct (Z.eqb_spec a 0) as [?|_]; [lia|].
  destruct (Z.ltb_spec a 0); [lia|]. cbn [xorb].
  change (Z.abs (-1)) with 1. rewrite (Z.abs_eq a) by lia.
  assert (Hla : 0 <= Z.log2 a < 53).
  { split; [apply Z.log2_nonneg|]. apply Z.log2_lt_pow2; lia. }
  pose proof (quot_exponent_le a 1) as Hqle.
  pose proof (quot_exponent_ge a 1) as Hqge.
  change (Z.log2 1) with 0 in *.
  set (qe := PyFloat.quot_exponent a 1) in *.
  unfold PyFloat.mant_dig, PyFloat.min_expo.
  rewrite (Z.max_l (qe - (53 - 1)) (-1074)) by lia.
  set (e := qe - (53 - 1)).
  assert (He : -53 <= e <= 0) by (unfold e; lia).
  rewrite (Z.max_r 0 (- e)), (Z.max_l 0 e) by lia.
  rewrite Z.pow_0_r, Z.mul_1_r.
  set (s := 2 ^ (- e)).
  assert (Hs : 1 <= s).
  { unfold s. pose proof (Z.pow_pos_nonneg 2 (- e)). lia. }
  rewrite round_half_even_exact by (rewrite ?Z.mod_1_r; lia).
  rewrite Z.div_1_r.
  assert (Hov : (0 <=? e) && (2 ^ PyFloat.max_exp <=? a * s * 2 ^ e) = false).
  { destruct (Z.leb_spec 0 e) as [Hle|]; [|done].
    assert (e = 0) as Heq by lia. unfold s. rewrite Heq.
    change (2 ^ (- 0)) with 1. rewrite Z.pow_0_r, !Z.mul_1_r.
    apply Z.leb_gt. pose proof pow2_mant_lt_max.
    unfold PyFloat.mant_dig in *. lia. }
  rewrite Hov. eexists; split; [done|].
  unfold PyFloat.ceil, PyFloat.floor_mag. cbn [PyFloat.negative
    PyFloat.mant PyFloat.expo].
  destruct (Z.leb_spec 0 e) as [Hle|].
  - assert (e = 0) as Heq by lia. unfold s. rewrite Heq.
    change (2 ^ (- 0)) with 1. rewrite Z.pow_0_r. lia.
  - fold s. rewrite Z.div_mul by lia. done.
Qed.

(** Without branches the divisor is [-1]: no error, and no padding. *)
Lemma calculate_padding_no_branches num_elements :
  0 <= num_elements <= 2 ^ 53 ->
  calculate_padding num_elements 0 = Ret (1 - num_elements, 0).
Proof.
  intros Hn. unfold calculate_padding. change (0 - 1) with (-1).
  destruct (decide (num_elements = 0)) as [->|Hn0]; [done|].
  destruct (decide (num_elements = 1)) as [->|Hn1]; [done|].
  destruct (true_divide_by_minus_one (num_elements - 1)) as (x & -> & Hx);
    [lia|].
  cbn. rewrite Hx. do 2 f_equal; lia.
Qed.

(** An empty symbols list passes the check of line 84 and the padding
    calculator: the empty table gives [None], a table of one item its leaf,
    and on a longer table the merge loop never ends. *)
Theorem build_huffman_tree_without_symbols fuel count_dict :
  exact_size (length count_dict) ->
  build_huffman_tree fuel count_dict []
  = match count_dict with
    | [] => Ret None
    | [item] => Ret (Some (leaf_of item))
    | _ => OutOfFuel
    end.
Proof.
  unfold exact_size. intros Hn. unfold build_huffman_tree.
  rewrite decide_False by (intros Hne; by apply Hne).
  cbn [length]. change (Z.of_nat 0) with 0.
  rewrite calculate_padding_no_branches by lia. cbn.
  rewrite app_nil_r.
  destruct count_dict as [|item [|item' count_dict]].
  - by destruct fuel.
  - apply merge_nodes_singleton.
  - apply merge_nodes_no_branches. rewrite length_fmap. simpl. lia.
Qed.

Lemma build_huffman_tree_without_symbols_witness :
  build_huffman_tree 50 sample_counts [] = OutOfFuel.
Proof.
  apply (build_huffman_tree_without_symbols 50 sample_counts).
  unfold exact_size. simpl. lia.
Defined.

(** A table of one target: the root is the leaf of that target, and its
    code word is empty, for every duplicate-free alphabet of two symbols or
    more. *)
Theorem single_target_has_empty_code_word fuel t c symbols :
  NoDup symbols -> (2 <= length symbols)%nat ->
  build_huffman_tree fuel [(t, c)] symbols
  = Ret (Some (mkNode c (Some t) []))
  /\ generate_encoding_map_with_count (Some (mkNode c (Some t) [])) symbols
       [(t, c)]
     = Ret {[ [] := (t, c) ]}.
Proof.
  intros Hnodup Hlen. split.
  - unfold build_huffman_tree.
    rewrite decide_False by (intros Hne; by apply Hne, unique_symbols_iff).
    unfold calculate_padding. cbn [length].
    change (Z.of_nat 1 - 1) with 0.
    destruct (true_divide_zero (Z.of_nat (length symbols) - 1))
      as (x & -> & Hceil); [lia|].
    cbn. rewrite Hceil.
    replace (Z.to_nat _) with 0%nat by lia.
    apply merge_nodes_singleton.
  - simpl. rewrite decide_True by done. cbn.
    by rewrite insert_empty.
Qed.

Lemma single_target_has_empty_code_word_witness :
  build_huffman_tree 0 [("x"%string, 7)] binary
  = Ret (Some (mkNode 7 (Some "x"%string) []))
  /\ generate_encoding_map_with_count
       (Some (mkNode 7 (Some "x"%string) [])) binary [("x"%string, 7)]
     = Ret {[ [] := ("x"%string, 7) ]}.
Proof.
  apply single_target_has_empty_code_word.
  - exact binary_NoDup.
  - simpl. lia.
Defined.

(** ** The traversal of any tree *)

Section TraverseOutcome.
Context (symbols : list string) (count_dict : list (string * Z)).

Lemma fits_unfold c t ch :
  fits symbols (mkNode c t ch) <-> (length ch <= length symbols)%nat /\ Forall (fits symbols) ch.
Proof.
  unfold fits. rewrite node_all_unfold. cbn [children].
  rewrite andb_true_iff. unfold at_most_children at 1. cbn [children].
  rewrite Nat.leb_le, forallb_forall, Forall_forall.
  split; intros [? Hall]; (split; [done|]); intros x Hx; apply Hall;
    by apply list_elem_of_In.
Qed.

Lemma has_keys_bind ch :
  Forall (λ t, is_Some (dict_get count_dict t)) (ch ≫= labelled).*1
  <-> Forall (has_keys count_dict) ch.
Proof.
  induction ch as [|x ch IH]; [by split; constructor|].
  rewrite bind_cons, fmap_app, Forall_app, Forall_cons, IH. done.
Qed.

Lemma has_keys_unfold c t ch :
  has_keys count_dict (mkNode c t ch)
  <-> (forall t', t = Some t' -> is_Some (dict_get count_dict t'))
      /\ Forall (has_keys count_dict) ch.
Proof.
  unfold has_keys at 1. rewrite labelled_unfold. cbn [target children count].
  rewrite fmap_app, Forall_app, has_keys_bind.
  split; intros [Ht Hch]; (split; [|done]).
  - intros t' ->. by apply Forall_inv in Ht.
  - destruct t as [t'|]; [|constructor]. repeat constructor. by apply Ht.
Qed.

Lemma for_children_outcome (visit : Node -> _) path i chs em :
  (i <= length symbols)%nat ->
  Forall (λ ch, forall path em,
            outcome_tells (visit ch path em) (fits symbols ch) (has_keys count_dict ch)) chs ->
  outcome_tells (for_children symbols visit path i chs em)
    ((i + length chs <= length symbols)%nat /\ Forall (fits symbols) chs)
    (Forall (has_keys count_dict) chs).
Proof.
  revert i em. induction chs as [|ch chs IH]; intros i em Hi Hall.
  - simpl. split; [split; [lia|done]|done].
  - apply Forall_cons in Hall as [Hch Hall]. cbn [for_children length].
    destruct (symbols !! i) as [s|] eqn:Hs.
    + apply lookup_lt_Some in Hs.
      specialize (Hch (path ++ [s]) em).
      destruct (visit ch (path ++ [s]) em) as [em'|e|]; cbn in *.
      * specialize (IH (S i) em' ltac:(lia) Hall).
        destruct (for_children symbols visit path (S i) chs em')
          as [em''|e|]; cbn in *.
        -- destruct Hch as [??], IH as [[??] ?].
           split; [split; [lia|by constructor]|by constructor].
        -- destruct IH as [[-> Hno]|[-> Hno]]; [left|right];
             (split; [done|]).
           ++ intros [? [??]%Forall_cons]. apply Hno. split; [lia|done].
           ++ by intros [??]%Forall_cons.
        -- done.
      * destruct Hch as [[-> Hno]|[-> Hno]]; [left|right]; (split; [done|]).
        -- by intros [_ [??]%Forall_cons].
        -- by intros [??]%Forall_cons.
      * done.
    + apply lookup_ge_None in Hs. cbn. left. split; [done|].
      intros [? _]. lia.
Qed.

Lemma traverse_outcome node :
  forall path em,
    outcome_tells (traverse symbols count_dict node path em)
      (fits symbols node) (has_keys count_dict node).
Proof.
  induction node as [c t ch IH] using Node_nested_ind. intros path em.
  rewrite traverse_unfold. cbn [target children].
  pose proof (fits_unfold c t ch) as Hfits.
  pose proof (has_keys_unfold c t ch) as Hkeys.
  assert (Hloop : forall em',
             (forall t', t = Some t' -> is_Some (dict_get count_dict t')) ->
             outcome_tells
               (for_children symbols (traverse symbols count_dict) path 0 ch
                  em')
               (fits symbols (mkNode c t ch)) (has_keys count_dict (mkNode c t ch))).
  { intros em' Ht.
    pose proof (for_children_outcome (traverse symbols count_dict) path 0 ch
                  em' ltac:(lia) IH) as Hout.
    destruct (for_children _ _ _ _ _ _) as [em''|e|]; cbn in *.
    - destruct Hout as [[??] ?]. split; [apply Hfits|apply Hkeys]; done.
    - destruct Hout as [[-> Hno]|[-> Hno]]; [left|right]; (split; [done|]).
      + intros [??]%Hfits. apply Hno. done.
      + intros [??]%Hkeys. done.
    - done. }
  destruct t as [t|].
  - destruct (dict_get count_dict t) as [cnt|] eqn:Hcnt; cbn.
    + apply Hloop. intros ? [= <-]. by rewrite Hcnt.
    + right. split; [done|]. intros [Ht _]%Hkeys.
      destruct (Ht t eq_refl) as [? Hsome]. by rewrite Hcnt in Hsome.
  - cbn. apply Hloop. by intros.
Qed.

End TraverseOutcome.



(** ** Code words and positions in the tree *)

Section Positions.
Context (symbols : list string).

Lemma words_of_children_elem_of {N} (words : N -> _) path i chs p t :
  (p, t) ∈ words_of_children symbols words path i chs
  <-> exists j ch s,
      chs !! j = Some ch /\ symbols !! (i + j)%nat = Some s
      /\ (p, t) ∈ words ch (path ++ [s]).
Proof.
  revert i. induction chs as [|ch chs IH]; intros i.
  - simpl. split; [by intros ?%elem_of_nil|]. by intros (j & ? & ? & [=] & _).
  - cbn [words_of_children]. destruct (symbols !! i) as [s0|] eqn:Hs0.
    + rewrite elem_of_app, IH. split.
      * intros [Hin|(j & ch' & s & Hj & Hs & Hin)].
        -- exists 0%nat, ch, s0. by rewrite Nat.add_0_r.
        -- exists (S j), ch', s. split_and!; [done| |done].
           by rewrite Nat.add_succ_r.
      * intros ([|j] & ch' & s & Hj & Hs & Hin).
        -- left. rewrite Nat.add_0_r in Hs. by simplify_eq/=.
        -- right. exists j, ch', s. split_and!; [done| |done].
           by rewrite Nat.add_succ_r in Hs.
    + split; [by intros ?%elem_of_nil|].
      intros (j & ch' & s & Hj & Hs & Hin).
      apply lookup_ge_None in Hs0. apply lookup_lt_Some in Hs. lia.
Qed.

(** The code words of a tree are the words spelled by the positions of the
    nodes that carry a target. *)
Lemma code_words_node_at node :
  forall path p t,
    (p, t) ∈ code_words symbols node path
    <-> exists positions q n,
        p = path ++ q /\ spells symbols positions q
        /\ node_at node positions = Some n /\ target n = Some t.
Proof.
  induction node as [c tg ch IH] using Node_nested_ind. intros path p t.
  rewrite code_words_unfold. cbn [target children].
  rewrite elem_of_app, words_of_children_elem_of. split.
  - intros [Hown|(j & child & s & Hj & Hs & Hin)].
    + destruct tg as [t0|]; [|by apply elem_of_nil in Hown].
      apply list_elem_of_singleton in Hown as [= -> ->].
      exists [], [], (mkNode c (Some t0) ch).
      rewrite app_nil_r. split_and!; try done. constructor.
    + rewrite Forall_lookup in IH. apply (IH j child Hj) in Hin.
      destruct Hin as (positions & q & n & -> & Hq & Hn & Ht).
      exists (j :: positions), (s :: q), n.
      rewrite <- app_assoc. split_and!; try done.
      * by constructor.
      * simpl. by rewrite Hj.
  - intros (positions & q & n & -> & Hq & Hn & Ht).
    destruct Hq as [|j s positions q Hs Hq].
    + left. simpl in Hn. injection Hn as <-. simpl in Ht. subst tg.
      rewrite app_nil_r. by apply list_elem_of_singleton.
    + right. simpl in Hn.
      destruct (ch !! j) as [child|] eqn:Hj; [|done].
      exists j, child, s. split_and!; try done.
      rewrite Forall_lookup in IH. apply (IH j child Hj).
      exists positions, q, n. by rewrite <- app_assoc.
Qed.

Lemma node_at_spells node :
  forall positions n,
    node_all (at_most_children (length symbols)) node = true ->
    node_at node positions = Some n ->
    exists word, spells symbols positions word.
Proof.
  intros positions. revert node.
  induction positions as [|j positions IH]; intros node n Hfits Hn.
  - exists []. constructor.
  - simpl in Hn. destruct (children node !! j) as [child|] eqn:Hj; [|done].
    rewrite node_all_unfold in Hfits.
    apply andb_true_iff in Hfits as [Hfit Hfits].
    unfold at_most_children in Hfit. apply Nat.leb_le in Hfit.
    destruct (lookup_lt_is_Some_2 symbols j) as [s Hs].
    { apply lookup_lt_Some in Hj. lia. }
    rewrite forallb_forall in Hfits.
    destruct (IH child n) as [word Hword]; [|done|].
    { apply Hfits. apply list_elem_of_In. by eapply list_elem_of_lookup_2. }
    exists (s :: word). by constructor.
Qed.

End Positions.

Lemma node_all_node_at P node :
  forall positions n,
    node_all P node = true -> node_at node positions = Some n ->
    P n = true.
Proof.
  intros positions. revert node.
  induction positions as [|j positions IH]; intros node n Hall Hn;
    rewrite node_all_unfold in Hall;
    apply andb_true_iff in Hall as [Hnode Hall].
  - simpl in Hn. by injection Hn as <-.
  - simpl in Hn. destruct (children node !! j) as [child|] eqn:Hj; [|done].
    rewrite forallb_forall in Hall. apply (IH child); [|done].
    apply Hall, list_elem_of_In. by eapply list_elem_of_lookup_2.
Qed.

Lemma node_at_labelled node :
  forall positions n t,
    node_at node positions = Some n -> target n = Some t ->
    (t, count n) ∈ labelled node.
Proof.
  intros positions. revert node.
  induction positions as [|j positions IH]; intros node n t Hn Ht;
    rewrite labelled_unfold; apply elem_of_app.
  - left. simpl in Hn. injection Hn as <-. rewrite Ht. left.
  - right. simpl in Hn.
    destruct (children node !! j) as [child|] eqn:Hj; [|done].
    apply list_elem_of_bind. exists child. split; [by eapply IH|].
    by eapply list_elem_of_lookup_2.
Qed.

Lemma foldl_record_lookup_inv count_dict words :
  forall em p v,
    foldl (record count_dict) em words !! p = Some v ->
    em !! p = Some v
    \/ exists t c, v = (t, c) /\ (p, t) ∈ words
                   /\ dict_get count_dict t = Some c.
Proof.
  induction words as [|[q t] words IH]; intros em p v; [by left|].
  cbn [foldl]. intros [Hrec|(t' & c & -> & Hin & Hc)]%IH.
  - unfold record in Hrec. cbn [fst snd] in Hrec.
    destruct (dict_get count_dict t) as [c|] eqn:Hc; [|by left].
    destruct (decide (q = p)) as [->|Hne].
    + rewrite lookup_insert_eq in Hrec. injection Hrec as <-.
      right. exists t, c. split_and!; [done|left|done].
    + rewrite lookup_insert_ne in Hrec by done. by left.
  - right. exists t', c. split_and!; [done|by right|done].
Qed.

Lemma entry_spells_positions root symbols count_dict em p t c :
  generate_encoding_map_with_count (Some root) symbols count_dict = Ret em ->
  em !! p = Some (t, c) ->
  exists positions n,
    node_at root positions = Some n /\ target n = Some t
    /\ spells symbols positions p /\ length p = length positions
    /\ dict_get count_dict t = Some c.
Proof.
  intros Hgen Hp.
  pose proof (traverse_outcome symbols count_dict root [] ∅) as Hout.
  simpl in Hgen. rewrite Hgen in Hout. destruct Hout as [Hfits Hkeys].
  rewrite traverse_words in Hgen by done. injection Hgen as <-.
  apply foldl_record_lookup_inv in Hp
    as [Hp|(t' & c' & [= <- <-] & Hin & Hc)]; [by rewrite lookup_empty in Hp|].
  apply code_words_node_at in Hin as (positions & q & n & -> & Hq & Hn & Ht).
  exists positions, n. split_and!; try done.
  symmetry. by eapply Forall2_length.
Qed.

(** Every entry of the map of any tree comes from a node of the tree: its
    code word spells the child positions that lead from the root to a node
    that carries the target, one symbol per level, and its count is the one
    of the table. *)
Theorem code_word_spells_positions root symbols count_dict em p t c :
  generate_encoding_map_with_count (Some root) symbols count_dict = Ret em ->
  em !! p = Some (t, c) ->
  exists positions n,
    node_at root positions = Some n /\ target n = Some t
    /\ spells symbols positions p /\ length p = length positions
    /\ dict_get count_dict t = Some c.
Proof. apply entry_spells_positions. Qed.

Lemma code_word_spells_positions_witness :
  exists positions n,
    node_at (mkNode 3 None [mkNode 1 (Some "a"%string) [];
                            mkNode 2 (Some "b"%string) []]) positions
    = Some n
    /\ target n = Some "b"%string
    /\ spells binary positions ["1"%string]
    /\ length ["1"%string] = length positions
    /\ dict_get [("a"%string, 1); ("b"%string, 2)] "b"%string = Some 2.
Proof.
  eapply (code_word_spells_positions _ binary).
  - vm_compute. reflexivity.
  - vm_compute. reflexivity.
Defined.

(** With distinct symbols, on a tree whose targets are on leaves, every node
    that carries a target has its entry: the word spelled by its
    positions. *)
Theorem target_node_has_code_word root symbols count_dict em positions n t :
  NoDup symbols ->
  node_all target_is_leaf root = true ->
  generate_encoding_map_with_count (Some root) symbols count_dict = Ret em ->
  node_at root positions = Some n -> target n = Some t ->
  exists p c,
    spells symbols positions p /\ em !! p = Some (t, c)
    /\ dict_get count_dict t = Some c.
Proof.
  intros Hnodup Hleaves Hgen Hn Ht.
  pose proof (traverse_outcome symbols count_dict root [] ∅) as Hout.
  simpl in Hgen. rewrite Hgen in Hout. destruct Hout as [Hfits Hkeys].
  rewrite traverse_words in Hgen by done. injection Hgen as <-.
  destruct (node_at_spells symbols root positions n Hfits Hn) as [p Hp].
  assert (Hin : (p, t) ∈ code_words symbols root []).
  { apply code_words_node_at. by exists positions, p, n. }
  assert (is_Some (dict_get count_dict t)) as [c Hc].
  { unfold has_keys in Hkeys. rewrite Forall_forall in Hkeys. apply Hkeys.
    rewrite <- (code_words_targets symbols root Hfits []).
    apply list_elem_of_fmap. by exists (p, t). }
  exists p, c. split_and!; [done| |done].
  apply foldl_record_lookup.
  - apply prefix_free_NoDup. by apply code_words_prefix_free.
  - by intros.
  - right. by exists t, c.
Qed.

Lemma target_node_has_code_word_witness :
  exists p c,
    spells binary [1%nat] p
    /\ ({[ ["0"%string] := ("a"%string, 1);
           ["1"%string] := ("b"%string, 2) ]}
          : gmap (list string) (string * Z)) !! p
       = Some ("b"%string, c)
    /\ dict_get [("a"%string, 1); ("b"%string, 2)] "b"%string = Some c.
Proof.
  eapply (target_node_has_code_word
            (mkNode 3 None [mkNode 1 (Some "a"%string) [];
                            mkNode 2 (Some "b"%string) []])
            binary _ _ [1%nat]).
  - exact binary_NoDup.
  - vm_compute. reflexivity.
  - vm_compute. reflexivity.
  - vm_compute. reflexivity.
  - reflexivity.
Defined.

(** ** What every returned tree holds *)

Lemma merge_loop_preserves fuel nodes b result :
  merge_loop fuel nodes b = Ret result ->
  (length result <= 1)%nat
  /\ sum_counts result = sum_counts nodes
  /\ result ≫= labelled ≡ₚ nodes ≫= labelled.
Proof.
  revert nodes. induction fuel as [|fuel IH]; intros nodes;
    cbn [merge_loop]; case_decide as Hlen; try done;
    try (intros [= <-]; split_and!; [lia|done|done]).
  destruct (pop_smallest_spec
              (Z.to_nat (Z.min b (Z.of_nat (length nodes)))) nodes 0 [])
    as (popped & rest & -> & Hperm & Hpopped); [lia|].
  cbn. rewrite Z.add_0_l. intros (Hres & Hsum & Hlab)%IH.
  pose proof (heappush_Permutation node_lt rest
                (mkNode (sum_counts popped) None popped)) as Hpush.
  split_and!; [done|..].
  - rewrite Hsum, Hpush, Hperm, sum_counts_app. done.
  - rewrite Hlab, Hpush, Hperm, bind_app. simpl. done.
Qed.

Lemma returned_tree_facts fuel count_dict symbols root :
  build_huffman_tree fuel count_dict symbols = Ret (Some root) ->
  count root = sum_values count_dict
  /\ labelled root ≡ₚ count_dict
  /\ forall positions n t,
       node_at root positions = Some n -> target n = Some t ->
       children n = []
       /\ (unique_keys count_dict ->
           dict_get count_dict t = Some (count n)).
Proof.
  intros Hbuild.
  assert (Hleaves : node_all target_is_leaf root = true).
  { eapply (build_huffman_tree_invariant
              (λ n, node_all target_is_leaf n = true)); [| | |exact Hbuild].
    - apply Forall_forall. by intros [t c] _.
    - done.
    - intros popped len _ _ Hall. rewrite node_all_unfold.
      apply andb_true_iff. split; [done|].
      cbn [children]. apply forallb_forall. rewrite Forall_forall in Hall.
      intros x Hx. apply Hall. by apply list_elem_of_In. }
  revert Hbuild. unfold build_huffman_tree. case_decide; [done|].
  destruct (calculate_padding _ _) as [[nbp npad]| |]; try done.
  cbn. unfold merge_nodes.
  destruct (merge_loop _ _ _) as [result| |] eqn:Hloop; try done.
  cbn. intros [= Hhead].
  apply merge_loop_preserves in Hloop as (Hlen & Hsum & Hlab).
  destruct result as [|x [|??]]; simplify_eq/=; try lia.
  rewrite heapify_Permutation in Hsum, Hlab.
  rewrite initial_sum_counts in Hsum. rewrite initial_labelled in Hlab.
  rewrite app_nil_r in Hlab.
  split_and!; [lia|done|].
  intros positions n t Hn Ht. split.
  - pose proof (node_all_node_at _ _ _ _ Hleaves Hn) as Hleaf.
    unfold target_is_leaf, is_leaf in Hleaf. rewrite Ht in Hleaf.
    by destruct (children n).
  - intros Huniq. apply dict_get_unique; [done|].
    rewrite <- Hlab. by eapply node_at_labelled.
Qed.

(** Whatever the alphabet, a tree that [build_huffman_tree] returns holds
    the table: its root weighs the sum of the counts, the nodes with a
    target are leaves, one per item of the table, and the count of such a
    leaf is the count of its target in the table. *)
Theorem returned_tree_holds_the_table fuel count_dict symbols root :
  build_huffman_tree fuel count_dict symbols = Ret (Some root) ->
  count root = sum_values count_dict
  /\ labelled root ≡ₚ count_dict
  /\ forall positions n t,
       node_at root positions = Some n -> target n = Some t ->
       children n = []
       /\ (unique_keys count_dict ->
           dict_get count_dict t = Some (count n)).
Proof. apply returned_tree_facts. Qed.

Lemma returned_tree_holds_the_table_witness :
  exists root,
    build_huffman_tree 6 sample_counts ternary = Ret (Some root)
    /\ count root = sum_values sample_counts
    /\ labelled root ≡ₚ sample_counts
    /\ forall positions n t,
         node_at root positions = Some n -> target n = Some t ->
         children n = []
         /\ (unique_keys sample_counts ->
             dict_get sample_counts t = Some (count n)).
Proof.
  eexists.
  eassert (Hbuild : build_huffman_tree 6 sample_counts ternary
                    = Ret (Some _)) by (vm_compute; reflexivity).
  split; [exact Hbuild|].
  exact (returned_tree_holds_the_table _ _ _ _ Hbuild).
Defined.

(** ** The heap order *)

Section HeapOrder.
Context {A : Type} (lt : A -> A -> bool) (key : A -> Z).
Hypothesis lt_key : forall x y, lt x y = (key x <? key y).
Implicit Types heap : list A.

Lemma parent_spec j :
  (0 < j)%nat -> (2 * parent j + 1 <= j <= 2 * parent j + 2)%nat.
Proof.
  intros Hj. unfold parent.
  pose proof (Nat.div_mod_eq (j - 1) 2).
  pose proof (Nat.mod_upper_bound (j - 1) 2). lia.
Qed.

Lemma parent_left p : parent (2 * p + 1) = p.
Proof. pose proof (parent_spec (2 * p + 1)). lia. Qed.

Lemma parent_right p : parent (2 * p + 1 + 1) = p.
Proof. pose proof (parent_spec (2 * p + 1 + 1)). lia. Qed.

Lemma reach_le s p : reach s p -> (s <= p)%nat.
Proof.
  induction 1 as [|j Hj _ IH]; [done|].
  pose proof (parent_spec j Hj). lia.
Qed.

Lemma reach_parent s p :
  reach s p -> (s < p)%nat -> reach s (parent p) /\ (s <= parent p)%nat.
Proof.
  intros [|j Hj Hr] Hlt; [lia|]. split; [done|by apply reach_le].
Qed.

Lemma reach_zero p : reach 0 p.
Proof.
  induction (lt_wf p) as [p _ IH]. destruct p as [|p]; [constructor|].
  apply reach_child; [lia|]. apply IH.
  pose proof (parent_spec (S p)). lia.
Qed.

Lemma exchange_lookup heap i j k :
  (i < length heap)%nat -> (j < length heap)%nat ->
  exchange heap i j !! k
  = if decide (k = i) then heap !! j
    else if decide (k = j) then heap !! i else heap !! k.
Proof.
  intros Hi Hj. unfold exchange.
  destruct (lookup_lt_is_Some_2 heap i Hi) as [x Hx].
  destruct (lookup_lt_is_Some_2 heap j Hj) as [y Hy].
  rewrite Hx, Hy.
  destruct (decide (k = i)) as [->|Hki].
  - rewrite list_lookup_insert_eq by (rewrite length_insert; lia). done.
  - rewrite list_lookup_insert_ne by done.
    destruct (decide (k = j)) as [->|Hkj].
    + by rewrite list_lookup_insert_eq.
    + by rewrite list_lookup_insert_ne.
Qed.

Lemma lt_at_false heap i j :
  (i < length heap)%nat -> lt_at lt heap i j = false -> le_at key heap j i.
Proof.
  intros Hi Hlt x y Hx Hy. unfold lt_at in Hlt. rewrite Hy, Hx in Hlt.
  rewrite lt_key in Hlt. by apply Z.ltb_ge in Hlt.
Qed.

Lemma lt_at_true heap i j :
  lt_at lt heap i j = true ->
  forall x y, heap !! i = Some x -> heap !! j = Some y -> key x < key y.
Proof.
  intros Hlt x y Hx Hy. unfold lt_at in Hlt. rewrite Hx, Hy in Hlt.
  rewrite lt_key in Hlt. by apply Z.ltb_lt in Hlt.
Qed.

Lemma le_at_use heap a b a' x y :
  le_at key heap a' b -> a = a' ->
  heap !! a = Some x -> heap !! b = Some y -> key x <= key y.
Proof. intros Hle <-. apply Hle. Qed.

Lemma lt_at_use heap a b a' b' x y :
  lt_at lt heap a' b' = true -> a = a' -> b = b' ->
  heap !! a = Some x -> heap !! b = Some y -> key x < key y.
Proof. intros Hlt <- <-. by apply lt_at_true. Qed.

Lemma lt_at_false_use heap a b a' b' x y :
  lt_at lt heap b' a' = false -> a = a' -> b = b' ->
  heap !! a = Some x -> heap !! b = Some y -> key x <= key y.
Proof.
  intros Hlt <- <- Hx Hy. unfold lt_at in Hlt. rewrite Hy, Hx in Hlt.
  rewrite lt_key in Hlt. by apply Z.ltb_ge in Hlt.
Qed.

(** [key x <= key y] from one fact of the context about the positions of
    [x] and [y]. *)
Ltac le_step Hx Hy :=
  match type of Hx with
  | ?h !! ?a = Some ?x =>
      match type of Hy with
      | h !! ?b = Some ?y =>
          first
            [ match goal with
              | Hf : forall j, _ |- _ =>
                  exact (le_at_use h a b _ x y
                           (Hf b ltac:(lia) ltac:(lia) ltac:(lia))
                           ltac:(lia) Hx Hy)
              end
            | match goal with
              | Hf : forall j, _ |- _ =>
                  exact (le_at_use h a b _ x y
                           (Hf b ltac:(lia) ltac:(lia) ltac:(lia) ltac:(lia))
                           ltac:(lia) Hx Hy)
              end
            | match goal with
              | Hl : lt_at lt h _ _ = true |- _ =>
                  pose proof (lt_at_use h a b _ _ x y Hl
                                ltac:(lia) ltac:(lia) Hx Hy); lia
              end
            | match goal with
              | Hl : lt_at lt h _ _ = false |- _ =>
                  exact (lt_at_false_use h a b _ _ x y Hl
                           ltac:(lia) ltac:(lia) Hx Hy)
              end ]
      end
  end.

Lemma siftdown_heap fuel heap s p :
  (p <= fuel)%nat -> almost_heap key s p heap ->
  heap_from key s (siftdown lt fuel heap s p)
  /\ length (siftdown lt fuel heap s p) = length heap.
Proof.
  revert heap p. induction fuel as [|fuel IH];
    intros heap p Hfuel (Hp & Hreach & Hok & Hgrand).
  - simpl. split; [|done]. intros j Hj Hs. apply Hok; [done..|lia].
  - cbn [siftdown]. case_decide as Hsp.
    + destruct (reach_parent s p Hreach Hsp) as [Hreach' Hspp].
      pose proof (parent_spec p ltac:(lia)) as Hpp.
      fold (parent p).
      destruct (lt_at lt heap p (parent p)) eqn:Hlt.
      * assert (Hlen : (parent p < length heap)%nat) by lia.
        destruct (IH (exchange heap p (parent p)) (parent p)) as [Hheap Hl];
          [lia| |split; [done|by rewrite Hl, exchange_length]].
        split_and!.
        -- by rewrite exchange_length.
        -- done.
        -- intros j Hj Hsj Hne x y.
           pose proof (parent_spec j Hj) as Hpj.
           destruct (lookup_lt_is_Some_2 heap (parent p) Hlen) as [z Hz].
           rewrite !exchange_lookup by done.
           repeat case_decide; try lia; intros Hx Hy;
             first [le_step Hx Hy
                   |trans (key z); [le_step Hx Hz|le_step Hz Hy]].
        -- intros j Hj Hjpp Hlow x y.
           pose proof (parent_spec j Hj) as Hpj.
           pose proof (parent_spec (parent p) ltac:(lia)) as Hppp.
           destruct (lookup_lt_is_Some_2 heap (parent p) Hlen) as [z Hz].
           destruct (reach_parent s (parent p) Hreach' Hlow) as [_ Hsppp].
           rewrite !exchange_lookup by done.
           repeat case_decide; try lia; intros Hx Hy;
             first [le_step Hx Hy
                   |trans (key z); [le_step Hx Hz|le_step Hz Hy]].
      * split; [|done]. intros j Hj Hsj.
        destruct (decide (j = p)) as [->|Hjp]; [|by apply Hok].
        by apply lt_at_false.
    + split; [|done]. intros j Hj Hs. apply Hok; [done..|].
      pose proof (reach_le _ _ Hreach). pose proof (parent_spec j Hj). lia.
Qed.

Lemma siftup_loop_almost fuel heap s p :
  (length heap - p <= fuel)%nat -> bubbling key s p heap ->
  almost_heap key s (siftup_loop lt fuel heap p).2 (siftup_loop lt fuel heap p).1
  /\ length (siftup_loop lt fuel heap p).1 = length heap.
Proof.
  revert heap p. induction fuel as [|fuel IH];
    intros heap p Hfuel (Hp & Hreach & Hok & Hgrand); [lia|].
  cbn [siftup_loop]. case_decide as Hchild.
  - set (c := if bool_decide (2 * p + 1 + 1 < length heap)%nat
                 && negb (lt_at lt heap (2 * p + 1) (2 * p + 1 + 1))
              then (2 * p + 1 + 1)%nat else (2 * p + 1)%nat).
    assert (Hc : (c < length heap)%nat /\ parent c = p /\ (0 < c)%nat
                 /\ forall j x y, (0 < j)%nat -> parent j = p -> j <> c ->
                       heap !! c = Some x -> heap !! j = Some y ->
                       key x <= key y).
    { unfold c. case_bool_decide as Hright; cbn [andb].
      - destruct (lt_at lt heap (2 * p + 1) (2 * p + 1 + 1)) eqn:Hlt;
          cbn [negb]; (split_and!; [lia|apply parent_left || apply parent_right
                                   |lia|]);
          intros j x y Hj Hpj Hjc Hx Hy; pose proof (parent_spec j Hj);
          le_step Hx Hy.
      - cbn [negb]. split_and!; [lia|apply parent_left|lia|].
        intros j x y Hj Hpj Hjc Hx Hy. pose proof (parent_spec j Hj).
        apply lookup_lt_Some in Hy. lia. }
    clearbody c. destruct Hc as (Hclen & Hcp & Hc0 & Hsmall).
    pose proof (parent_spec c Hc0) as Hpc.
    destruct (IH (exchange heap p c) c) as [Halmost Hl];
      [rewrite exchange_length; lia|
      |split; [done|by rewrite Hl, exchange_length]].
    split_and!.
    + by rewrite exchange_length.
    + apply reach_child; [done|]. by rewrite Hcp.
    + intros j Hj Hsj Hjc Hpjc x y.
      pose proof (parent_spec j Hj) as Hpj.
      rewrite !exchange_lookup by done.
      repeat case_decide; try lia; intros Hx Hy;
        first [le_step Hx Hy
              |by eapply Hsmall
              |pose proof (parent_spec p ltac:(lia)); le_step Hx Hy].
    + intros j Hj Hjc Hsc x y.
      pose proof (parent_spec j Hj) as Hpj.
      rewrite !exchange_lookup by done.
      repeat case_decide; try lia; intros Hx Hy.
      le_step Hx Hy.
  - cbn [fst snd]. split; [|done]. split_and!; [done|done|..].
    + intros j Hj Hsj Hjp. destruct (decide (parent j = p)) as [Hpj|Hpj].
      * intros x y Hx Hy. pose proof (parent_spec j Hj).
        apply lookup_lt_Some in Hy. lia.
      * by apply Hok.
    + intros j Hj Hpj Hsp x y Hx Hy. pose proof (parent_spec j Hj).
      apply lookup_lt_Some in Hy. lia.
Qed.

Lemma siftup_heap heap s :
  (s < length heap)%nat -> heap_from key (S s) heap ->
  heap_from key s (siftup lt heap s) /\ length (siftup lt heap s) = length heap.
Proof.
  intros Hs Hheap. unfold siftup.
  destruct (siftup_loop_almost (length heap) heap s s) as [Halmost Hl];
    [lia| |].
  { split_and!; [done|constructor|..].
    - intros j Hj Hsj Hjs Hpjs. apply Hheap; [done|lia].
    - intros; lia. }
  destruct (siftup_loop lt (length heap) heap s) as [heap' leaf].
  cbn [fst snd] in *.
  destruct (siftdown_heap leaf heap' s leaf) as [Hfrom Hl']; [lia|done|].
  split; [done|]. by rewrite Hl'.
Qed.

Lemma heapify_heap heap : heap_from key 0 (heapify lt heap).
Proof.
  unfold heapify.
  assert (forall m h, (2 * m <= length h)%nat -> heap_from key m h ->
                      heap_from key 0 (foldl (siftup lt) h (reverse (seq 0 m))))
    as Hfold.
  { induction m as [|m IH]; intros h Hm Hh; [done|].
    rewrite seq_S, reverse_app. cbn [reverse foldl plus app].
    rewrite reverse_singleton. cbn [app foldl].
    destruct (siftup_heap h m) as [Hfrom Hl]; [lia|done|].
    apply IH; [lia|done]. }
  apply Hfold.
  - pose proof (Nat.div_mod_eq (length heap) 2). lia.
  - intros j Hj Hpj x y Hx Hy. pose proof (parent_spec j Hj).
    apply lookup_lt_Some in Hy.
    pose proof (Nat.div_mod_eq (length heap) 2).
    pose proof (Nat.mod_upper_bound (length heap) 2). lia.
Qed.

Lemma heappush_heap heap item :
  heap_from key 0 heap -> heap_from key 0 (heappush lt heap item).
Proof.
  intros Hheap. unfold heappush.
  apply siftdown_heap; [lia|]. split_and!.
  - rewrite length_app. simpl. lia.
  - apply reach_zero.
  - intros j Hj _ Hjn x y Hx Hy.
    pose proof (parent_spec j Hj).
    assert (j < length heap)%nat.
    { apply lookup_lt_Some in Hy. rewrite length_app in Hy. simpl in Hy. lia. }
    rewrite lookup_app_l in Hx, Hy by lia. by eapply Hheap; [| |done..]; lia.
  - intros j Hj Hpj _ x y Hx Hy. pose proof (parent_spec j Hj).
    apply lookup_lt_Some in Hy. rewrite length_app in Hy. simpl in Hy. lia.
Qed.

(** The first item of a heap is a smallest one. *)
Lemma heap_head_least heap x :
  heap_from key 0 heap -> heap !! 0%nat = Some x ->
  forall y, y ∈ heap -> key x <= key y.
Proof.
  intros Hheap Hx y [j Hy]%list_elem_of_lookup_1. revert y Hy.
  induction (lt_wf j) as [j _ IH]. intros y Hy.
  destruct (decide (j = 0%nat)) as [->|Hj]; [by simplify_eq|].
  pose proof (parent_spec j ltac:(lia)) as Hpj.
  destruct (lookup_lt_is_Some_2 heap (parent j)) as [z Hz].
  { apply lookup_lt_Some in Hy. lia. }
  pose proof (IH (parent j) ltac:(lia) z Hz).
  pose proof (Hheap j ltac:(lia) ltac:(lia) z y Hz Hy). lia.
Qed.

Lemma heappop_heap heap item heap' :
  heap_from key 0 heap -> heappop lt heap = Some (item, heap') ->
  heap_from key 0 heap' /\ forall y, y ∈ heap' -> key item <= key y.
Proof.
  intros Hheap Hpop.
  assert (Hleast : forall y, y ∈ heap' -> key item <= key y).
  { pose proof (heappop_Permutation lt heap item heap' Hpop) as Hperm.
    assert (heap !! 0%nat = Some item) as Hhead.
    { revert Hpop. unfold heappop.
      destruct (last heap) as [lastelt|] eqn:Hlast; [|done].
      apply last_Some in Hlast as [front ->]. rewrite removelast_last.
      destruct front; intros; by simplify_eq/=. }
    intros y Hy. apply (heap_head_least heap item Hheap Hhead).
    rewrite Hperm. by right. }
  split; [|done]. revert Hpop. unfold heappop.
  destruct (last heap) as [lastelt|] eqn:Hlast; [|done].
  apply last_Some in Hlast as [front ->]. rewrite removelast_last.
  destruct front as [|returnitem front]; intros; simplify_eq/=.
  { intros j Hj _ x y Hx Hy. by destruct (parent j). }
  apply siftup_heap; [simpl; lia|].
  intros j Hj Hpj x y Hx Hy. pose proof (parent_spec j Hj).
  assert (j < S (length front))%nat
    by (apply lookup_lt_Some in Hy; simpl in Hy; lia).
  apply (Hheap j Hj ltac:(lia)).
  - destruct (parent j) as [|k] eqn:Hk; [lia|]. simpl in *.
    rewrite lookup_app_l; [done|]. apply lookup_lt_Some in Hx. lia.
  - destruct j as [|k]; [lia|]. simpl in *.
    rewrite lookup_app_l; [done|]. lia.
Qed.

End HeapOrder.

(** ** The order of the children *)

Lemma node_lt_count x y : node_lt x y = (count x <? count y).
Proof. done. Qed.

Lemma sorted_counts_snoc nodes node :
  sorted_counts nodes = true ->
  (forall x, x ∈ nodes -> count x <= count node) ->
  sorted_counts (nodes ++ [node]) = true.
Proof.
  induction nodes as [|x [|y nodes] IH]; intros Hsorted Hle; [done|..].
  - simpl. rewrite andb_true_r. apply Z.leb_le, Hle. left.
  - cbn [sorted_counts app] in *.
    apply andb_true_iff in Hsorted as [Hxy Hsorted].
    apply andb_true_iff. split; [done|].
    apply IH; [done|]. intros z Hz. apply Hle. by right.
Qed.

Lemma pop_smallest_ascending k :
  forall nodes merged_count merged_children,
    heap_from count 0 nodes -> (k <= length nodes)%nat ->
    sorted_counts merged_children = true ->
    (forall x y, x ∈ merged_children -> y ∈ nodes -> count x <= count y) ->
    exists popped rest merged_count',
      pop_smallest k nodes merged_count merged_children
      = Ret (rest, merged_count', popped)
      /\ sorted_counts popped = true
      /\ heap_from count 0 rest.
Proof.
  induction k as [|k IH]; intros nodes c ch Hheap Hk Hsorted Hle.
  - by exists ch, nodes, c.
  - cbn [pop_smallest].
    destruct (heappop_is_Some node_lt nodes) as [[node nodes'] Hpop].
    { intros ->. simpl in Hk. lia. }
    rewrite Hpop.
    pose proof (heappop_Permutation _ _ _ _ Hpop) as Hperm.
    destruct (heappop_heap node_lt count node_lt_count _ _ _ Hheap Hpop)
      as [Hheap' Hleast].
    apply IH; [done| | |].
    + apply Permutation_length in Hperm. simpl in Hperm. lia.
    + apply sorted_counts_snoc; [done|].
      intros x Hx. apply Hle; [done|]. rewrite Hperm. left.
    + intros x y [Hx|Hx%list_elem_of_singleton]%elem_of_app Hy.
      * apply Hle; [done|]. rewrite Hperm. by right.
      * subst x. by apply Hleast.
Qed.

Lemma merge_loop_ascending b fuel :
  forall nodes result,
    heap_from count 0 nodes ->
    Forall (λ n, node_all children_ascending n = true) nodes ->
    merge_loop fuel nodes b = Ret result ->
    Forall (λ n, node_all children_ascending n = true) result.
Proof.
  induction fuel as [|fuel IH]; intros nodes result Hheap Hall;
    cbn [merge_loop]; case_decide as Hlen; try done;
    try (by intros [= <-]).
  set (k := Z.to_nat (Z.min b (Z.of_nat (length nodes)))).
  destruct (pop_smallest_spec k nodes 0 [])
    as (popped & rest & Hspec & Hperm & Hpopped); [lia|].
  destruct (pop_smallest_ascending k nodes 0 [] Hheap)
    as (popped' & rest' & c' & Hasc & Hsorted & Hheap');
    [lia|done|by intros ?? ?%elem_of_nil|].
  rewrite Hspec in Hasc. injection Hasc as <- <- <-.
  rewrite Hspec. cbn. rewrite Z.add_0_l. apply IH.
  - by apply (heappush_heap node_lt count node_lt_count).
  - rewrite heappush_Permutation. rewrite Hperm in Hall.
    apply Forall_app in Hall as [Hpop Hrest]. constructor; [|done].
    rewrite node_all_unfold. apply andb_true_iff. split; [done|].
    cbn [children]. apply forallb_forall. rewrite Forall_forall in Hpop.
    intros x Hx. apply Hpop. by apply list_elem_of_In.
Qed.

(** In every tree that [build_huffman_tree] returns the children of a node
    are in ascending order of count: a merge step takes the lightest node
    first, and the first symbol labels the lightest child. *)
Theorem built_tree_children_ascending fuel count_dict symbols root :
  build_huffman_tree fuel count_dict symbols = Ret (Some root) ->
  node_all children_ascending root = true.
Proof.
  unfold build_huffman_tree. case_decide; [done|].
  destruct (calculate_padding _ _) as [[nbp npad]| |]; try done.
  cbn. unfold merge_nodes.
  destruct (merge_loop _ _ _) as [result| |] eqn:Hloop; try done.
  cbn. intros [= Hhead].
  apply merge_loop_ascending in Hloop.
  - destruct result as [|x result]; simplify_eq/=. by inversion Hloop.
  - apply (heapify_heap node_lt count node_lt_count).
  - rewrite heapify_Permutation. apply Forall_app. split.
    + apply Forall_fmap, Forall_forall. by intros [t c] _.
    + by apply Forall_replicate.
Qed.

Lemma built_tree_children_ascending_witness :
  exists root,
    build_huffman_tree 6 sample_counts ternary = Ret (Some root)
    /\ node_all children_ascending root = true.
Proof.
  eexists.
  eassert (Hbuild : build_huffman_tree 6 sample_counts ternary
                    = Ret (Some _)) by (vm_compute; reflexivity).
  split; [exact Hbuild|].
  exact (built_tree_children_ascending _ _ _ _ Hbuild).
Defined.

(** ** The length of the code words *)

Lemma depth_le_internal node :
  forall positions n,
    node_at node positions = Some n ->
    (length positions <= count_nodes is_internal node)%nat.
Proof.
  intros positions. revert node.
  induction positions as [|j positions IH]; intros node n Hn;
    [simpl; lia|].
  simpl in Hn. destruct (children node !! j) as [child|] eqn:Hj; [|done].
  specialize (IH child n Hn). rewrite count_nodes_unfold.
  assert (is_internal node = true) as ->.
  { unfold is_internal, is_leaf. by destruct (children node). }
  assert (count_nodes is_internal child
          <= sum_list (count_nodes is_internal <$> children node))%nat.
  { apply list_elem_of_lookup_2, list_elem_of_split in Hj
      as (l1 & l2 & ->).
    rewrite fmap_app, fmap_cons, sum_list_with_app. simpl. lia. }
  simpl. lia.
Qed.

(** A code word of a tree built for a table of [n] targets has at most
    [n - 1] symbols, and at least one when there are two targets or more:
    only the target of a table of one gets the empty word. *)
Theorem code_word_length_bound fuel count_dict symbols root em p v :
  NoDup symbols -> (2 <= length symbols)%nat ->
  exact_size (length symbols) -> exact_size (length count_dict) ->
  build_huffman_tree fuel count_dict symbols = Ret (Some root) ->
  generate_encoding_map_with_count (Some root) symbols count_dict = Ret em ->
  em !! p = Some v ->
  (length p + 1 <= length count_dict)%nat
  /\ ((2 <= length count_dict)%nat -> (1 <= length p)%nat).
Proof.
  intros Hnodup Hb Hbx Hnx Hbuild Hgen Hp. destruct v as [t c].
  destruct (entry_spells_positions _ _ _ _ _ _ _ Hgen Hp)
    as (positions & n & Hn & Ht & _ & Hlen & Hc).
  split.
  - pose proof (depth_le_internal root positions n Hn) as Hdepth.
    destruct (node_counts_of_built_tree _ _ _ _ Hnodup Hb Hbx Hnx Hbuild)
      as (nbp & npad & Hpad & Hint & _).
    assert (count_dict <> []) as Hne by (by intros ->).
    assert (1 <= Z.of_nat (length count_dict)).
    { destruct count_dict; [done|simpl; lia]. }
    unfold exact_size in *.
    rewrite calculate_padding_exact in Hpad by lia. injection Hpad as <- _.
    pose proof (ceil_div_bounds (Z.of_nat (length count_dict) - 1)
                  (Z.of_nat (length symbols) - 1) ltac:(lia)) as Hcb.
    set (k := ceil_div _ _) in *.
    assert (k <= Z.of_nat (length count_dict) - 1) by nia.
    lia.
  - intros Hmany. destruct positions as [|j positions]; [|simpl in Hlen; lia].
    simpl in Hn. injection Hn as <-.
    destruct (returned_tree_facts _ _ _ _ Hbuild) as (_ & Hlab & Hleaf).
    destruct (Hleaf [] root t eq_refl Ht) as [Hch _].
    rewrite labelled_unfold, Ht, Hch in Hlab.
    apply Permutation_length in Hlab. simpl in Hlab. lia.
Qed.

Lemma code_word_length_bound_witness :
  (length ["1"; "2"; "2"]%string + 1 <= length sample_counts)%nat
  /\ ((2 <= length sample_counts)%nat
      -> (1 <= length ["1"; "2"; "2"]%string)%nat).
Proof.
  eapply (code_word_length_bound 6 sample_counts ternary _ _
            ["1"; "2"; "2"]%string ("b"%string, 9)).
  - exact ternary_NoDup.
  - simpl. lia.
  - unfold exact_size. simpl. lia.
  - unfold exact_size. simpl. lia.
  - vm_compute. reflexivity.
  - vm_compute. reflexivity.
  - vm_compute. reflexivity.
Defined.

(** When the alphabet has a symbol for every target, of which there are two
    or more, one merge takes all the leaves: every code word is a single
    symbol. *)
Theorem wide_alphabet_gives_single_symbols
    fuel count_dict symbols root em p v :
  NoDup symbols -> exact_size (length symbols) ->
  (2 <= length count_dict <= length symbols)%nat ->
  build_huffman_tree fuel count_dict symbols = Ret (Some root) ->
  generate_encoding_map_with_count (Some root) symbols count_dict = Ret em ->
  em !! p = Some v ->
  length p = 1%nat.
Proof.
  intros Hnodup Hbx Hsize Hbuild Hgen Hp. destruct v as [t c].
  unfold exact_size in *.
  destruct (entry_spells_positions _ _ _ _ _ _ _ Hgen Hp)
    as (positions & n & Hn & Ht & _ & Hlen & Hc).
  assert (length positions <= 1)%nat.
  { pose proof (depth_le_internal root positions n Hn) as Hdepth.
    destruct (node_counts_of_built_tree fuel count_dict symbols root)
      as (nbp & npad & Hpad & Hint & _);
      [done|lia|done|unfold exact_size; lia|done|].
    rewrite calculate_padding_exact in Hpad by lia. injection Hpad as <- _.
    rewrite (ceil_div_spec _ _ 1) in Hint by lia. simpl in Hint. lia. }
  assert (1 <= length positions)%nat; [|lia].
  destruct positions as [|j positions]; [|simpl; lia].
  simpl in Hn. injection Hn as <-.
  destruct (returned_tree_facts _ _ _ _ Hbuild) as (_ & Hlab & Hleaf).
  destruct (Hleaf [] root t eq_refl Ht) as [Hch _].
  rewrite labelled_unfold, Ht, Hch in Hlab.
  apply Permutation_length in Hlab. simpl in Hlab. lia.
Qed.

Lemma wide_alphabet_gives_single_symbols_witness :
  length ["1"%string] = 1%nat.
Proof.
  eapply (wide_alphabet_gives_single_symbols 2
            [("a"%string, 4); ("b"%string, 1)] ternary _ _
            ["1"%string] ("b"%string, 1)).
  - exact ternary_NoDup.
  - unfold exact_size. simpl. lia.
  - simpl. lia.
  - vm_compute. reflexivity.
  - vm_compute. reflexivity.
  - vm_compute. reflexivity.
Defined.
